(** * Microstrip post-processing: conversions, permeability model, layer defaults

    A shallow embedding of the solver-independent parts of [hfss_ms.py],
    [hfss_2d_ms.py] and [example_microstrip.py]:

    - the inline conversion functions of [HFSSMS.__init__]
      ([mag2db], [db2mag], [gamma2ereff], [ereff2gamma], [gamma2dbmm]);
    - the Landau-Lifshitz permeability model [LLmodel];
    - [HFSSMS.fill_missing_vals], which writes defaults into the caller's
      layer dictionaries;
    - the per-frequency arrays stored by [HFSSMS.__init__].

    Arithmetic convention.  In the modules [Cplx], [HFSSMS],
    [example_microstrip] and [RunSimulation], Python floats and complex
    numbers are read as exact real and complex numbers: [+], [-], [*], [/],
    [sqrt], [exp], [log10] and [**] are the mathematical operations.  That
    reading is used for what survives binary64 rounding: equalities of
    values, tolerance bounds and non-strict signs.  Whether a result is
    exactly zero, or whether a division is by zero, depends on rounding and
    underflow; where a statement turns on that, the module [Binary64]
    evaluates the same expressions on binary64 numbers. *)

From Stdlib Require Import Reals Lra Lia ZArith List String.
From Stdlib Require Import Sorted.
From Stdlib Require Floats.
From stdpp Require Import gmap strings list fin_maps.

(** ** Complex numbers as NumPy computes with them *)

Module Cplx.
Local Open Scope R_scope.

Record C : Type := mkC { re : R; im : R }.

(** A real operand meeting a complex one is promoted to [x + 0j]. *)
Definition RtoC (x : R) : C := mkC x 0.

(** The literal [1j]. *)
Definition Ci : C := mkC 0 1.

Definition Cadd (a b : C) : C := mkC (re a + re b) (im a + im b).
Definition Csub (a b : C) : C := mkC (re a - re b) (im a - im b).
Definition Copp (a : C) : C := mkC (- re a) (- im a).
Definition Cmul (a b : C) : C :=
  mkC (re a * re b - im a * im b) (re a * im b + im a * re b).

(** [x**2] on a complex value. *)
Definition Csqr (a : C) : C := Cmul a a.

(** [abs(x)]. *)
Definition Cabs (a : C) : R := sqrt (re a * re a + im a * im a).

(** Quotient of two complex numbers, for a divisor that is not zero. *)
Definition Cquot (a b : C) : C :=
  let d := re b * re b + im b * im b in
  mkC ((re a * re b + im a * im b) / d) ((im a * re b - re a * im b) / d).

Definition Czero_dec (b : C) : {b = mkC 0 0} + {b <> mkC 0 0}.
Proof.
  destruct b as [x y].
  destruct (Req_dec_T x 0) as [Hx | Hx].
  - destruct (Req_dec_T y 0) as [Hy | Hy].
    + left. subst. reflexivity.
    + right. intros H. inversion H. contradiction.
  - right. intros H. inversion H. contradiction.
Defined.

(** [a / b]: dividing by zero is the one failure of the arithmetic used
    here ([ZeroDivisionError] on Python scalars, a non-finite entry on
    NumPy arrays), reported as [None]. *)
Definition Cdiv (a b : C) : option C :=
  if Czero_dec b then None else Some (Cquot a b).

(** [np.sqrt] on a complex argument: the principal square root, with
    non-negative real part, and on the negative real axis the root of
    non-negative imaginary part. *)
Definition Csqrt (z : C) : C :=
  let m := Cabs z in
  mkC (sqrt ((m + re z) / 2))
      (if Rle_dec 0 (im z) then sqrt ((m - re z) / 2)
       else - sqrt ((m - re z) / 2)).

(** [np.log10] on a real. *)
Definition log10 (x : R) : R := ln x / ln 10.

End Cplx.

(** ** The inline functions of [HFSSMS.__init__]

    The same five lambdas and three constants appear in [hfss_ms.py]
    (lines 117-127) and in [hfss_2d_ms.py] (lines 85-95). *)

Module HFSSMS.
Import Cplx.
Local Open Scope R_scope.

Definition mu0 : R := 1.25663706212e-6.
Definition ep0 : R := 8.8541878128e-12.
Definition c0 : R := 1 / sqrt (mu0 * ep0).
Definition sigma_cu : R := 58e6.

(** [np.finfo(float).eps], the binary64 machine epsilon [2**-52]. *)
Definition eps : R := / 2 ^ 52.

(** [lambda x: 20*np.log10(abs(x))] *)
Definition mag2db (x : C) : R := 20 * log10 (Cabs x).

(** [lambda x: 10**(x/20)] *)
Definition db2mag (x : R) : R := Rpower 10 (x / 20).

(** [lambda x,f: -(self.c0/2/np.pi/f*x)**2] *)
Definition gamma2ereff (x : C) (f : R) : C :=
  Copp (Csqr (Cmul (RtoC (c0 / 2 / PI / f)) x)).

(** [lambda x,f: 2*np.pi*f/self.c0*np.sqrt(-(x-1j*np.finfo(float).eps))] *)
Definition ereff2gamma (x : C) (f : R) : C :=
  Cmul (RtoC (2 * PI * f / c0))
       (Csqrt (Copp (Csub x (Cmul Ci (RtoC eps))))).

(** [lambda x: self.mag2db(np.exp(x.real*1e-3))] *)
Definition gamma2dbmm (x : C) : R := mag2db (RtoC (exp (re x * 1e-3))).

End HFSSMS.

(** ** The Landau-Lifshitz permeability model of [example_microstrip.py] *)

Module example_microstrip.
Import Cplx.
Local Open Scope R_scope.

(** Numerator [f0**2 + 1j*f*gamma]. *)
Definition LLmodel_num (f f0 gamma : R) : C :=
  Cadd (RtoC (f0 ^ 2)) (Cmul (Cmul Ci (RtoC f)) (RtoC gamma)).

(** Denominator [f0**2 + 2j*f*gamma - f**2]. *)
Definition LLmodel_den (f f0 gamma : R) : C :=
  Csub (Cadd (RtoC (f0 ^ 2)) (Cmul (Cmul (mkC 0 2) (RtoC f)) (RtoC gamma)))
       (RtoC (f ^ 2)).

(** [return murf + (muri - murf)*(f0**2 + 1j*f*gamma)/( f0**2 + 2j*f*gamma - f**2)]
    at one frequency point. *)
Definition LLmodel (f : R) (muri murf : C) (f0 gamma : R) : option C :=
  match Cdiv (Cmul (Csub muri murf) (LLmodel_num f f0 gamma))
             (LLmodel_den f f0 gamma) with
  | Some q => Some (Cadd murf q)
  | None => None
  end.

(** The same expression on a frequency array: NumPy evaluates it point by
    point, and the result is a complex array only if every division is
    defined. *)
Fixpoint LLmodel_array (fs : list R) (muri murf : C) (f0 gamma : R)
  : option (list C) :=
  match fs with
  | nil => Some nil
  | f :: fs' =>
      match LLmodel f muri murf f0 gamma,
            LLmodel_array fs' muri murf f0 gamma with
      | Some y, Some ys => Some (y :: ys)
      | _, _ => None
      end
  end.

(** The formula as the specification writes it,
    [mu_inf + (mu_static - mu_inf) (f0^2 + j f g) / (f0^2 + 2 j f g - f^2)],
    with numerator and denominator given by their real and imaginary
    parts. *)
Definition permeability_spec (f : R) (mu_static mu_inf : C) (f0 g : R) : C :=
  Cadd mu_inf
       (Cquot (Cmul (Csub mu_static mu_inf) (mkC (f0 * f0) (f * g)))
              (mkC (f0 * f0 - f * f) (2 * f * g))).

End example_microstrip.

(** ** Layer dictionaries and [HFSSMS.fill_missing_vals]

    The conductor arguments are Python lists of dictionaries.  Both are
    mutable objects reached through references, and the example script
    passes one list twice ([conductor_sig_side = conductor_sig_top]), so
    the model keeps an object store. *)

Module Layers.
Import Cplx.

(** Values stored under the keys of a layer dictionary. *)
Inductive value : Type :=
  | VNone
  | VInt (n : Z)
  | VFloat (x : R)
  | VComplex (z : C)
  | VStr (s : string)
  | VArray (a : list C).

(** Object identity. *)
Definition loc : Type := positive.

Inductive obj : Type :=
  | ODict (d : gmap string value)
  | OList (items : list loc).

(** [default_values.get(key, None)] *)
Definition dict_get (d : gmap string value) (key : string) : value :=
  match d !! key with
  | Some v => v
  | None => VNone
  end.

(** The body of the inner loop:
    [if key not in material: material[key] = default_values.get(key, None)].
    The default table is read only when the key is missing.  The model
    covers layers and default tables that are dictionaries; for any other
    object it gives no result. *)
Definition fill_key (default_values material : loc) (key : string)
    (h : gmap loc obj) : option (gmap loc obj) :=
  match h !! material with
  | Some (ODict m) =>
      match m !! key with
      | Some _ => Some h
      | None =>
          match h !! default_values with
          | Some (ODict d) =>
              Some (<[material := ODict (<[key := dict_get d key]> m)]> h)
          | _ => None
          end
      end
  | _ => None
  end.

(** [for key in required_keys: ...] on one material. *)
Fixpoint fill_material (required_keys : list string)
    (default_values material : loc) (h : gmap loc obj)
  : option (gmap loc obj) :=
  match required_keys with
  | nil => Some h
  | key :: keys =>
      match fill_key default_values material key h with
      | Some h' => fill_material keys default_values material h'
      | None => None
      end
  end.

(** [for material in material_properties: ...] *)
Fixpoint fill_materials (required_keys : list string) (default_values : loc)
    (materials : list loc) (h : gmap loc obj) : option (gmap loc obj) :=
  match materials with
  | nil => Some h
  | material :: rest =>
      match fill_material required_keys default_values material h with
      | Some h' => fill_materials required_keys default_values rest h'
      | None => None
      end
  end.

(** [fill_missing_vals(self, required_keys, default_values, material_properties)]:
    runs the two loops on the store and returns the reference it was
    given.  The model covers [material_properties] being a list, as the
    constructor documents it; for any other object it gives no result. *)
Definition fill_missing_vals (required_keys : list string)
    (default_values material_properties : loc) (h : gmap loc obj)
  : option (gmap loc obj * loc) :=
  match h !! material_properties with
  | Some (OList materials) =>
      match fill_materials required_keys default_values materials h with
      | Some h' => Some (h', material_properties)
      | None => None
      end
  | _ => None
  end.

(** The constants of [run_simulation] (lines 209-210). *)
Definition required_keys : list string :=
  ("sigma" :: "mur" :: "er" :: "Rrms" :: "boundary_loc" :: "distribution" :: nil)%string.

Definition default_values : gmap string value :=
  <["sigma" := VFloat 58e6%R]>
  (<["mur" := VComplex (Csub (RtoC 1) (mkC 0 0))]>
  (<["er" := VNone]>
  (<["Rrms" := VInt 0]>
  (<["boundary_loc" := VInt 0]>
  (<["distribution" := VStr "norm"]> ∅))))).

(** A store in which [material_properties] is a list whose items are all
    dictionaries and [default_values] is a dictionary. *)
Definition is_dict (h : gmap loc obj) (l : loc) : Prop :=
  ∃ m, h !! l = Some (ODict m).

Definition layers_at (h : gmap loc obj) (material_properties : loc)
    (materials : list loc) : Prop :=
  h !! material_properties = Some (OList materials) ∧
  Forall (is_dict h) materials.

(** *** The store the loops leave behind

    A closed description of the result, used to state what
    [fill_missing_vals] does; the theorems below relate it to the loops. *)

(** One pass of the inner-loop body over the contents [m] of a dictionary,
    reading defaults from the contents [d] of the default table. *)
Definition fill_step (d m : gmap string value) (key : string)
  : gmap string value :=
  match m !! key with
  | Some _ => m
  | None => <[key := dict_get d key]> m
  end.

Definition fill_dict (required_keys : list string) (d m : gmap string value)
  : gmap string value :=
  foldl (fill_step d) m required_keys.

Definition fill_obj (required_keys : list string) (d : gmap string value)
    (o : obj) : obj :=
  match o with
  | ODict m => ODict (fill_dict required_keys d m)
  | OList items => OList items
  end.

Definition filled_store (required_keys : list string) (d : gmap string value)
    (materials : list loc) (h : gmap loc obj) : gmap loc obj :=
  map_imap
    (fun l o =>
       Some (if decide (l ∈ materials) then fill_obj required_keys d o else o))
    h.

(** A caller's store: one layer that gives only its roughness, the list
    holding it, and the default table. *)
Definition bare_layer : gmap string value := {["Rrms" := VInt 0]}.

Definition example_store : gmap loc obj :=
  <[3%positive := ODict default_values]>
  (<[2%positive := OList (1%positive :: nil)]>
  (<[1%positive := ODict bare_layer]> ∅)).

End Layers.

(** ** The per-frequency arrays of [HFSSMS.__init__] ([hfss_ms.py], lines 87-99) *)

Module Ctor.
Local Open Scope R_scope.

(** A constructor argument documented as "number or 1d-array". *)
Inductive ndarray : Type :=
  | Scalar (x : R)
  | Array1 (xs : list R).

(** [np.atleast_1d] *)
Definition atleast_1d (a : ndarray) : list R :=
  match a with
  | Scalar x => x :: nil
  | Array1 xs => xs
  end.

(** [np.ones_like] of a one-dimensional array. *)
Definition ones_like (a : list R) : list R := repeat 1 (length a).

Fixpoint mul_pointwise (xs ys : list R) : list R :=
  match xs, ys with
  | x :: xs', y :: ys' => x * y :: mul_pointwise xs' ys'
  | _, _ => nil
  end.

(** [x * a] for [x] a number or 1d-array and [a] a 1d-array, under NumPy's
    broadcasting rule: equal lengths multiply point by point, a length-one
    operand is stretched to the other's length, anything else raises
    [ValueError]. *)
Definition mul_broadcast (x : ndarray) (a : list R) : option (list R) :=
  match x with
  | Scalar c => Some (map (Rmult c) a)
  | Array1 xs =>
      if Nat.eqb (length xs) (length a) then Some (mul_pointwise xs a)
      else match xs, a with
           | c :: nil, _ => Some (map (Rmult c) a)
           | _, y :: nil => Some (map (fun v => v * y) xs)
           | _, _ => None
           end
  end.

Record state : Type := mkState {
  self_f : list R;
  self_er : list R;
  self_etand : list R;
  self_mur : list R;
  self_mutand : list R
}.

(** The assignments to [self.f], [self.er], [self.etand], [self.mur],
    [self.mutand]; the remaining attributes are copied arguments. *)
Definition init (f er etand mur mutand : ndarray) : option state :=
  let self_f := atleast_1d f in
  match mul_broadcast er (ones_like self_f),
        mul_broadcast etand (ones_like self_f),
        mul_broadcast mur (ones_like self_f),
        mul_broadcast mutand (ones_like self_f) with
  | Some e, Some et, Some m, Some mt => Some (mkState self_f e et m mt)
  | _, _, _, _ => None
  end.

End Ctor.

(** ** Computations inside [run_simulation] *)

Module RunSimulation.
Import Cplx Layers.
Local Open Scope R_scope.

(** [self.f.max()]: NumPy raises [ValueError] on an empty array. *)
Fixpoint array_max (xs : list R) : option R :=
  match xs with
  | nil => None
  | x :: rest =>
      match array_max rest with
      | Some m => Some (Rmax x m)
      | None => Some x
      end
  end.

(** [hfss_ms.py], line 139:
    [solution_freq = self.f.max()*0.8 if solution_freq is None else solution_freq].
    The grid is inspected only when no frequency is given. *)
Definition solution_freq_default (self_f : list R) (solution_freq : option R)
  : option R :=
  match solution_freq with
  | Some s => Some s
  | None =>
      match array_max self_f with
      | Some m => Some (m * 0.8)
      | None => None
      end
  end.

(** [hfss_2d_ms.py], line 101:
    [solution_freq = self.f[-1]*0.8 if solution_freq is None else solution_freq];
    [self.f[-1]] raises [IndexError] on an empty array. *)
Definition solution_freq_default_2d (self_f : list R)
    (solution_freq : option R) : option R :=
  match solution_freq with
  | Some s => Some s
  | None =>
      match last self_f with
      | Some m => Some (m * 0.8)
      | None => None
      end
  end.

(** A binary operation on two one-dimensional arrays under NumPy's
    broadcasting rule. *)
Definition broadcast2 {A B D : Type} (op : A -> B -> D)
    (xs : list A) (ys : list B) : option (list D) :=
  if Nat.eqb (length xs) (length ys) then Some (zip_with op xs ys)
  else match xs, ys with
       | x :: nil, _ => Some (map (op x) ys)
       | _, y :: nil => Some (map (fun x => op x y) xs)
       | _, _ => None
       end.

(** [1 - 1j*tand] on an array of loss tangents. *)
Definition loss_factor (tand : list R) : list C :=
  map (fun t => Csub (RtoC 1) (Cmul Ci (RtoC t))) tand.

(** [hfss_ms.py], lines 212-213:
    [mur_dielectric = self.mur*(1 - 1j*self.mutand)] and
    [er_dielectric = self.er*(1 - 1j*self.etand)]. *)
Definition complex_material (a tand : list R) : option (list C) :=
  broadcast2 (fun x z => Cmul (RtoC x) z) a (loss_factor tand).

(** [x[key]] on a layer: [KeyError] when the key is absent. *)
Definition getitem (h : gmap loc obj) (x : loc) (key : string)
  : option value :=
  match h !! x with
  | Some (ODict m) => m !! key
  | _ => None
  end.

(** [[x[key] for x in conductor_properties]] ([hfss_ms.py], lines 219-221
    and the three branches after them). *)
Definition column (h : gmap loc obj) (conductor_properties : loc)
    (key : string) : option (list value) :=
  match h !! conductor_properties with
  | Some (OList items) => mapM (fun x => getitem h x key) items
  | _ => None
  end.

(** [np.array([complex(x,y) for x,y in zip(real, imag)])]
    ([hfss_ms.py], lines 332-333; [hfss_2d_ms.py], lines 209-210). *)
Definition complex_array (real imag : list R) : list C :=
  zip_with mkC real imag.

End RunSimulation.

(** ** The same expressions on binary64 numbers

    Python's [float] is a binary64 number and its [complex] a pair of them.
    The operations below are those of the interpreter on such values;
    [+], [-], [*], [/] and the comparisons are the processor's, rounding to
    nearest. *)

Module Binary64.
Import PrimFloat.
Local Open Scope float_scope.

Record complex : Set := mkComplex { real : float; imag : float }.

(** A float operand meeting a complex one is converted to [x + 0j]. *)
Definition of_float (x : float) : complex := mkComplex x 0.

Definition c_sum (a b : complex) : complex :=
  mkComplex (real a + real b) (imag a + imag b).

Definition c_diff (a b : complex) : complex :=
  mkComplex (real a - real b) (imag a - imag b).

Definition c_prod (a b : complex) : complex :=
  mkComplex (real a * real b - imag a * imag b)
            (real a * imag b + imag a * real b).

(** Complex division as the interpreter performs it: the quotient is
    scaled by the larger component of the divisor, and a divisor both of
    whose components are zero raises [ZeroDivisionError], here [None]. *)
Definition c_quot (a b : complex) : option complex :=
  let abs_breal := if real b <? 0 then - real b else real b in
  let abs_bimag := if imag b <? 0 then - imag b else imag b in
  if abs_bimag <=? abs_breal then
    if abs_breal =? 0 then None
    else
      let ratio := imag b / real b in
      let denom := real b + imag b * ratio in
      Some (mkComplex ((real a + imag a * ratio) / denom)
                      ((imag a - real a * ratio) / denom))
  else if abs_breal <=? abs_bimag then
    let ratio := real b / imag b in
    let denom := real b * ratio + imag b in
    Some (mkComplex ((real a * ratio + imag a) / denom)
                    ((imag a * ratio - real a) / denom))
  else Some (mkComplex nan nan).

(** [x**2] on a float: the C library's [pow(x, 2.0)], taken as the
    correctly rounded square. *)
Definition pow2 (x : float) : float := x * x.

(** [LLmodel] of [example_microstrip.py] called on Python floats:
    [murf + (muri - murf)*(f0**2 + 1j*f*gamma)/( f0**2 + 2j*f*gamma - f**2)]. *)
Definition LLmodel_b64 (f muri murf f0 gamma : float) : option complex :=
  let num :=
    c_sum (of_float (pow2 f0))
          (c_prod (c_prod (mkComplex 0 1) (of_float f)) (of_float gamma)) in
  let den :=
    c_diff (c_sum (of_float (pow2 f0))
                  (c_prod (c_prod (mkComplex 0 2) (of_float f))
                          (of_float gamma)))
           (of_float (pow2 f)) in
  match c_quot (c_prod (of_float (muri - murf)) num) den with
  | Some q => Some (c_sum (of_float murf) q)
  | None => None
  end.

(** [np.exp] where its value is settled by the format alone: for
    [|t| < 2**-54] the exponential is closer to 1 than a quarter of the gap
    between 1 and its neighbours, and the library returns [1.0 + t] rounded,
    that is [1.0].  Other arguments are left out of this model. *)
Definition np_exp (t : float) : option float :=
  if abs t <? 0x1p-54 then Some (1 + t) else None.

(** [np.log10] at the one argument where the C standard fixes the result:
    [log10(1.0)] is [+0.0].  Other arguments are left out of this model. *)
Definition np_log10 (v : float) : option float :=
  if v =? 1 then Some 0 else None.

(** [lambda x: 20*np.log10(abs(x))] on a float. *)
Definition mag2db_b64 (x : float) : option float :=
  match np_log10 (abs x) with
  | Some l => Some (20 * l)
  | None => None
  end.

(** [lambda x: self.mag2db(np.exp(x.real*1e-3))], as a function of
    [x.real]; the literal [1e-3] is the float [0x1.0624dd2f1a9fcp-10]. *)
Definition gamma2dbmm_b64 (x_real : float) : option float :=
  match np_exp (x_real * 0x1.0624dd2f1a9fcp-10) with
  | Some v => mag2db_b64 v
  | None => None
  end.

End Binary64.

(** ** Vocabulary of the statements *)

Module Contracts.
Import Cplx.
Local Open Scope R_scope.

(** [ereff2gamma(gamma2ereff(x, f), f)] *)
Definition roundtrip (x : C) (f : R) : C :=
  HFSSMS.ereff2gamma (HFSSMS.gamma2ereff x f) f.

(** [got] reproduces [want] to within the relative tolerance [tol]. *)
Definition within_rel (tol : R) (got want : C) : Prop :=
  Cabs (Csub got want) <= tol * Cabs want.

(** Every stored per-frequency array is as long as the stored grid. *)
Definition aligned (s : Ctor.state) : Prop :=
  length (Ctor.self_er s) = length (Ctor.self_f s) /\
  length (Ctor.self_etand s) = length (Ctor.self_f s) /\
  length (Ctor.self_mur s) = length (Ctor.self_f s) /\
  length (Ctor.self_mutand s) = length (Ctor.self_f s).

End Contracts.

(** * Properties *)

(** ** Real and complex arithmetic *)

Section ComplexFacts.
Import Cplx.
Local Open Scope R_scope.

Lemma C_eq (a b : C) : re a = re b -> im a = im b -> a = b.
Proof. destruct a, b; simpl; intros -> ->; reflexivity. Qed.

Lemma Cnorm2_nonneg (a : C) : 0 <= re a * re a + im a * im a.
Proof. nra. Qed.

Lemma Cabs_nonneg (a : C) : 0 <= Cabs a.
Proof. apply sqrt_pos. Qed.

Lemma Cabs_sqr (a : C) : Cabs a * Cabs a = re a * re a + im a * im a.
Proof. unfold Cabs. apply sqrt_sqrt, Cnorm2_nonneg. Qed.

Lemma Cabs_RtoC (x : R) : Cabs (RtoC x) = Rabs x.
Proof.
  unfold Cabs, RtoC; simpl.
  replace (x * x + 0 * 0) with (Rsqr x) by (unfold Rsqr; ring).
  apply sqrt_Rsqr_abs.
Qed.

Lemma Cabs_pos (a : C) : a <> mkC 0 0 -> 0 < Cabs a.
Proof.
  intros Ha. unfold Cabs. apply sqrt_lt_R0.
  destruct a as [x y]; simpl.
  destruct (Req_dec x 0) as [-> | Hx].
  - destruct (Req_dec y 0) as [-> | Hy]; [congruence | nra].
  - nra.
Qed.

Lemma Cabs_ge_re (a : C) : Rabs (re a) <= Cabs a.
Proof.
  rewrite <- sqrt_Rsqr_abs. unfold Cabs, Rsqr.
  apply sqrt_le_1_alt. nra.
Qed.

Lemma Cabs_ge_im (a : C) : Rabs (im a) <= Cabs a.
Proof.
  rewrite <- sqrt_Rsqr_abs. unfold Cabs, Rsqr.
  apply sqrt_le_1_alt. nra.
Qed.

Lemma Csqrt_re_nonneg (z : C) : 0 <= re (Csqrt z).
Proof. unfold Csqrt; simpl. apply sqrt_pos. Qed.

Lemma ln10_pos : 0 < ln 10.
Proof. rewrite <- ln_1. apply ln_increasing; lra. Qed.

Lemma log10_exp (t : R) : log10 (exp t) = t / ln 10.
Proof. unfold log10. rewrite ln_exp. reflexivity. Qed.

Lemma Rpower10_log10 (a : R) : 0 < a -> Rpower 10 (log10 a) = a.
Proof.
  intros Ha. unfold Rpower, log10.
  replace (ln a / ln 10 * ln 10) with (ln a)
    by (field; apply Rgt_not_eq, ln10_pos).
  apply exp_ln, Ha.
Qed.

End ComplexFacts.

(** ** Constants of the conversion functions *)

Section Constants.
Import Cplx HFSSMS.
Local Open Scope R_scope.

Lemma mu0_ep0_pos : 0 < mu0 * ep0.
Proof. unfold mu0, ep0. lra. Qed.

Lemma c0_pos : 0 < c0.
Proof.
  unfold c0. apply Rdiv_lt_0_compat; [lra |].
  apply sqrt_lt_R0, mu0_ep0_pos.
Qed.

Lemma eps_pos : 0 < eps.
Proof. unfold eps. apply Rinv_0_lt_compat, pow_lt. lra. Qed.

Lemma wavenumber_pos (f : R) : 0 < f -> 0 < 2 * PI * f / c0.
Proof.
  intros Hf. apply Rdiv_lt_0_compat; [| apply c0_pos].
  pose proof PI_RGT_0. nra.
Qed.

Lemma wavelength_pos (f : R) : 0 < f -> 0 < c0 / 2 / PI / f.
Proof.
  intros Hf. pose proof PI_RGT_0 as Hpi. pose proof c0_pos as Hc.
  apply Rdiv_lt_0_compat; [| exact Hf].
  apply Rdiv_lt_0_compat; [| exact Hpi].
  apply Rdiv_lt_0_compat; [exact Hc | lra].
Qed.

End Constants.

(** ** Evaluations on binary64 numbers *)

Section Binary64Facts.
Import PrimFloat Binary64.
Local Open Scope float_scope.

(** The binary64 model on ordinary arguments: [LLmodel(1.0, 20.0, 1.0, 2.0, 3.0)]
    is [13.666666666666666 - 6.333333333333333j]. *)
Lemma LLmodel_b64_ordinary :
  LLmodel_b64 1 20 1 2 3
    = Some (mkComplex 0x1.b555555555555p+3 (-0x1.9555555555555p+2)).
Proof. reflexivity. Qed.


(** C7, the claim fails: on binary64 numbers the loss of a propagation
    constant with real part [1e-14] (the float [0x1.6849b86a12b9bp-47]) is
    exactly zero, because [exp(1e-17)] rounds to [1.0]; the real part is
    not zero. *)
Lemma gamma2dbmm_b64_zero_off_axis :
  gamma2dbmm_b64 0x1.6849b86a12b9bp-47 = Some 0 /\
  eqb 0x1.6849b86a12b9bp-47 0 = false.
Proof. split; reflexivity. Qed.

End Binary64Facts.

(** ** Magnitude and decibel conversions *)

Section Decibels.
Import Cplx HFSSMS.
Local Open Scope R_scope.

(** C10: for every nonzero complex [x] (a real being a complex with zero
    imaginary part), [db2mag (mag2db x)] is the absolute value of [x]; for a
    positive real it is [x] itself. *)
Theorem db2mag_mag2db (x : C) (Hx : x <> mkC 0 0) :
  db2mag (mag2db x) = Cabs x /\
  (im x = 0 -> 0 < re x -> db2mag (mag2db x) = re x).
Proof.
  assert (Habs : db2mag (mag2db x) = Cabs x).
  { unfold db2mag, mag2db.
    replace (20 * log10 (Cabs x) / 20) with (log10 (Cabs x)) by field.
    apply Rpower10_log10, Cabs_pos, Hx. }
  split; [exact Habs |].
  intros Him Hre. rewrite Habs.
  replace x with (RtoC (re x)).
  - rewrite Cabs_RtoC. simpl. apply Rabs_pos_eq. lra.
  - apply C_eq; simpl; congruence.
Qed.

Lemma db2mag_mag2db_witness :
  db2mag (mag2db (mkC 2 0)) = Cabs (mkC 2 0) /\
  (im (mkC 2 0) = 0 -> 0 < re (mkC 2 0) -> db2mag (mag2db (mkC 2 0)) = 2).
Proof.
  apply (db2mag_mag2db (mkC 2 0)).
  intros H. apply (f_equal re) in H. simpl in H. lra.
Defined.

Lemma gamma2dbmm_linear (x : C) : gamma2dbmm x = 20 * (re x * 1e-3) / ln 10.
Proof.
  unfold gamma2dbmm, mag2db. rewrite Cabs_RtoC.
  rewrite Rabs_pos_eq by (left; apply exp_pos).
  rewrite log10_exp. field. apply Rgt_not_eq, ln10_pos.
Qed.

(** C7, as amended: [gamma2dbmm x] is [20 log10 (exp (Re x * 1e-3))]; it is
    non-negative when [Re x >= 0], and it is zero when [Re x = 0]. *)
Theorem gamma2dbmm_sign (x : C) :
  gamma2dbmm x = 20 * log10 (exp (re x * 1e-3)) /\
  (0 <= re x -> 0 <= gamma2dbmm x) /\
  (re x = 0 -> gamma2dbmm x = 0).
Proof.
  pose proof ln10_pos as Hln.
  assert (Hlin : gamma2dbmm x = (20 * 1e-3 / ln 10) * re x).
  { rewrite gamma2dbmm_linear. field. lra. }
  assert (Hk : 0 < 20 * 1e-3 / ln 10).
  { apply Rdiv_lt_0_compat; lra. }
  split; [| split].
  - rewrite gamma2dbmm_linear, log10_exp. field. lra.
  - intros Hre. rewrite Hlin. apply Rmult_le_pos; lra.
  - intros Hre. rewrite Hlin, Hre. ring.
Qed.

Lemma gamma2dbmm_sign_witness :
  gamma2dbmm (mkC 0 5) = 0 /\ 0 <= gamma2dbmm (mkC 3 5).
Proof.
  split.
  - apply (proj2 (proj2 (gamma2dbmm_sign (mkC 0 5)))). reflexivity.
  - apply (proj1 (proj2 (gamma2dbmm_sign (mkC 3 5)))). simpl. lra.
Defined.

End Decibels.

(** ** Effective permittivity back to a propagation constant *)

Section Ereff2Gamma.
Import Cplx HFSSMS.
Local Open Scope R_scope.

Lemma ereff2gamma_arg (x : C) :
  Copp (Csub x (Cmul Ci (RtoC eps))) = mkC (- re x) (- im x + eps).
Proof. apply C_eq; simpl; ring. Qed.

Lemma re_scale (k : R) (w : C) : re (Cmul (RtoC k) w) = k * re w.
Proof. simpl. ring. Qed.

Lemma im_scale (k : R) (w : C) : im (Cmul (RtoC k) w) = k * im w.
Proof. simpl. ring. Qed.

(** C6: for an effective permittivity with non-positive imaginary part (a
    real one included) and [f > 0], [ereff2gamma x f] is
    [(2 pi f / c0) sqrt (-x + j eps)] and its real part is non-negative. *)
Theorem ereff2gamma_re_nonneg (x : C) (f : R) :
  im x <= 0 -> 0 < f ->
  ereff2gamma x f =
    Cmul (RtoC (2 * PI * f / c0)) (Csqrt (mkC (- re x) (- im x + eps))) /\
  0 <= re (ereff2gamma x f).
Proof.
  intros _ Hf. unfold ereff2gamma. rewrite ereff2gamma_arg.
  split; [reflexivity |].
  rewrite re_scale. apply Rmult_le_pos.
  - left. apply wavenumber_pos, Hf.
  - apply Csqrt_re_nonneg.
Qed.

Lemma ereff2gamma_re_nonneg_witness :
  ereff2gamma (mkC 3 (-1)) 1 =
    Cmul (RtoC (2 * PI * 1 / c0)) (Csqrt (mkC (- 3) (- -1 + eps))) /\
  0 <= re (ereff2gamma (mkC 3 (-1)) 1).
Proof. apply (ereff2gamma_re_nonneg (mkC 3 (-1)) 1); simpl; lra. Defined.

End Ereff2Gamma.

(** ** The permeability model *)

Section Permeability.
Import Cplx example_microstrip.
Local Open Scope R_scope.

Lemma LLmodel_num_parts (f f0 gamma : R) :
  LLmodel_num f f0 gamma = mkC (f0 * f0) (f * gamma).
Proof. apply C_eq; simpl; ring. Qed.

Lemma LLmodel_den_parts (f f0 gamma : R) :
  LLmodel_den f f0 gamma = mkC (f0 * f0 - f * f) (2 * f * gamma).
Proof. apply C_eq; simpl; ring. Qed.

(** The denominator vanishes only if both [f0^2 = f^2] and [f gamma = 0]. *)
Lemma LLmodel_den_nz (f f0 gamma : R) :
  0 < f0 -> 0 < gamma -> LLmodel_den f f0 gamma <> mkC 0 0.
Proof.
  intros Hf0 Hg Hz. rewrite LLmodel_den_parts in Hz.
  injection Hz as Hre Him.
  assert (Hf : f = 0) by nra.
  subst f. nra.
Qed.

Lemma LLmodel_point (f : R) (muri murf : C) (f0 gamma : R) :
  0 < f0 -> 0 < gamma ->
  LLmodel f muri murf f0 gamma = Some (permeability_spec f muri murf f0 gamma).
Proof.
  intros Hf0 Hg. unfold LLmodel, Cdiv.
  destruct (Czero_dec (LLmodel_den f f0 gamma)) as [Hz | _].
  - exfalso. revert Hz. apply LLmodel_den_nz; assumption.
  - unfold permeability_spec.
    rewrite LLmodel_num_parts, LLmodel_den_parts. reflexivity.
Qed.

(** C2: for positive [f0] and [gamma] and any scalars [muri], [murf],
    [LLmodel] on a frequency array returns, at each point [f], the value
    [murf + (muri - murf) (f0^2 + j f gamma) / (f0^2 + 2 j f gamma - f^2)]. *)
Theorem LLmodel_array_spec (fs : list R) (muri murf : C) (f0 gamma : R) :
  0 < f0 -> 0 < gamma ->
  LLmodel_array fs muri murf f0 gamma =
    Some (map (fun f => permeability_spec f muri murf f0 gamma) fs).
Proof.
  intros Hf0 Hg. induction fs as [| f fs IH]; simpl.
  - reflexivity.
  - rewrite LLmodel_point by assumption. rewrite IH. reflexivity.
Qed.

Lemma LLmodel_array_spec_witness :
  LLmodel_array (1 :: 2 :: nil) (RtoC 20) (RtoC 1) 2 3 =
    Some (map (fun f => permeability_spec f (RtoC 20) (RtoC 1) 2 3)
              (1 :: 2 :: nil)).
Proof. apply (LLmodel_array_spec (1 :: 2 :: nil) (RtoC 20) (RtoC 1) 2 3); lra. Defined.



End Permeability.

(** ** The principal square root *)

Section PrincipalRoot.
Import Cplx.
Local Open Scope R_scope.

Lemma Cabs_re_bounds (z : C) : 0 <= Cabs z + re z /\ 0 <= Cabs z - re z.
Proof.
  pose proof (Cabs_ge_re z) as H.
  unfold Rabs in H. destruct (Rcase_abs (re z)); lra.
Qed.

Lemma Csqrt_re_sqr (z : C) :
  re (Csqrt z) * re (Csqrt z) = (Cabs z + re z) / 2.
Proof.
  unfold Csqrt; simpl. apply sqrt_sqrt.
  pose proof (Cabs_re_bounds z). lra.
Qed.

Lemma Csqrt_im_sqr (z : C) :
  im (Csqrt z) * im (Csqrt z) = (Cabs z - re z) / 2.
Proof.
  pose proof (Cabs_re_bounds z) as [_ H].
  unfold Csqrt; simpl. destruct (Rle_dec 0 (im z)).
  - apply sqrt_sqrt. lra.
  - rewrite Rmult_opp_opp. apply sqrt_sqrt. lra.
Qed.

Lemma Csqrt_cross_abs (z : C) :
  sqrt ((Cabs z + re z) / 2) * sqrt ((Cabs z - re z) / 2) = Rabs (im z) / 2.
Proof.
  pose proof (Cabs_re_bounds z) as [Hp Hm].
  rewrite <- sqrt_mult_alt by lra.
  replace ((Cabs z + re z) / 2 * ((Cabs z - re z) / 2))
    with (Rsqr (im z / 2)).
  - rewrite sqrt_Rsqr_abs. unfold Rdiv. rewrite Rabs_mult.
    rewrite (Rabs_pos_eq (/ 2)) by lra. reflexivity.
  - unfold Rsqr. pose proof (Cabs_sqr z). nra.
Qed.

Lemma Csqrt_cross (z : C) : 2 * (re (Csqrt z) * im (Csqrt z)) = im z.
Proof.
  pose proof (Csqrt_cross_abs z) as H.
  unfold Csqrt; simpl. destruct (Rle_dec 0 (im z)) as [Hv | Hv].
  - rewrite H, Rabs_pos_eq by exact Hv. field.
  - rewrite Ropp_mult_distr_r_reverse, H.
    rewrite Rabs_left by lra. field.
Qed.

(** Squaring the principal root gives the argument back. *)
Lemma Csqr_Csqrt (z : C) : Csqr (Csqrt z) = z.
Proof.
  apply C_eq.
  - unfold Csqr, Cmul. cbn [re im].
    rewrite Csqrt_re_sqr, Csqrt_im_sqr. field.
  - unfold Csqr, Cmul. cbn [re im].
    pose proof (Csqrt_cross z). lra.
Qed.

Lemma Csqrt_im_nonneg (z : C) : 0 <= im z -> 0 <= im (Csqrt z).
Proof.
  intros Hv. unfold Csqrt; simpl.
  destruct (Rle_dec 0 (im z)); [apply sqrt_pos | contradiction].
Qed.

Lemma Csqrt_im_nonpos (z : C) : im z < 0 -> im (Csqrt z) <= 0.
Proof.
  intros Hv. unfold Csqrt; simpl.
  destruct (Rle_dec 0 (im z)); [lra |].
  pose proof (sqrt_pos ((Cabs z - re z) / 2)). lra.
Qed.

(** The sizes involved: with [N = p^2 + q^2] and [M = s^2 + t^2], the
    square of [M] is [N^2 + 4 p q e + e^2], so [M] lies between [N - e] and
    [N + e]. *)
Lemma root_size (s t p q e : R) :
  0 < e ->
  s * s - t * t = p * p - q * q ->
  2 * (s * t) = 2 * (p * q) + e ->
  (e <= p * p + q * q -> p * p + q * q - e <= s * s + t * t) /\
  s * s + t * t <= p * p + q * q + e.
Proof.
  intros He Hre Him.
  set (N := p * p + q * q). set (M := s * s + t * t).
  assert (HM0 : 0 <= M).
  { pose proof (Rle_0_sqr s) as H1. pose proof (Rle_0_sqr t) as H2.
    unfold Rsqr in H1, H2. unfold M. lra. }
  assert (HN0 : 0 <= N).
  { pose proof (Rle_0_sqr p) as H1. pose proof (Rle_0_sqr q) as H2.
    unfold Rsqr in H1, H2. unfold N. lra. }
  assert (HMM : M * M = N * N + 2 * (2 * (p * q)) * e + e * e).
  { replace (M * M)
      with ((s * s - t * t) * (s * s - t * t)
            + (2 * (s * t)) * (2 * (s * t))) by (unfold M; ring).
    rewrite Hre, Him. unfold N. ring. }
  assert (Hlo : - N <= 2 * (p * q)).
  { pose proof (Rle_0_sqr (p + q)) as H. unfold Rsqr in H. unfold N. lra. }
  assert (Hhi : 2 * (p * q) <= N).
  { pose proof (Rle_0_sqr (p - q)) as H. unfold Rsqr in H. unfold N. lra. }
  assert (Hlo' : - N * e <= 2 * (p * q) * e)
    by (apply Rmult_le_compat_r; lra).
  assert (Hhi' : 2 * (p * q) * e <= N * e)
    by (apply Rmult_le_compat_r; lra).
  split.
  - intros HNe.
    destruct (Rle_dec (N - e) M) as [H | H]; [exact H | exfalso].
    assert (Hlt : M < N - e) by lra.
    assert (Hsq : M * M < (N - e) * (N - e))
      by (apply Rmult_le_0_lt_compat; lra).
    replace ((N - e) * (N - e)) with (N * N - 2 * (N * e) + e * e) in Hsq
      by ring.
    lra.
  - destruct (Rle_dec M (N + e)) as [H | H]; [exact H | exfalso].
    assert (Hlt : N + e < M) by lra.
    assert (Hsq : (N + e) * (N + e) < M * M)
      by (apply Rmult_le_0_lt_compat; lra).
    replace ((N + e) * (N + e)) with (N * N + 2 * (N * e) + e * e) in Hsq
      by ring.
    lra.
Qed.

(** Aligned roots of a number of size at least [5.1e8 e]: the squared
    distance is at most [1e-18] times the squared size. *)
Lemma aligned_root_close (s t p q e : R) :
  0 < e ->
  s * s - t * t = p * p - q * q ->
  2 * (s * t) = 2 * (p * q) + e ->
  0 <= s * p + t * q ->
  5.1e8 * e <= p * p + q * q ->
  (s - p) * (s - p) + (t - q) * (t - q)
    <= 1e-9 * 1e-9 * (p * p + q * q).
Proof.
  intros He Hre Him Hal Hbig.
  destruct (root_size s t p q e He Hre Him) as [Hlow _].
  set (N := p * p + q * q) in *. set (M := s * s + t * t) in *.
  set (E := (s - p) * (s - p) + (t - q) * (t - q)).
  set (A := (s + p) * (s + p) + (t + q) * (t + q)).
  assert (HE0 : 0 <= E).
  { pose proof (Rle_0_sqr (s - p)) as H1. pose proof (Rle_0_sqr (t - q)) as H2.
    unfold Rsqr in H1, H2. unfold E. lra. }
  assert (HEA : E * A = e * e).
  { replace (e * e)
      with ((s * s - t * t - (p * p - q * q)) * (s * s - t * t - (p * p - q * q))
            + (2 * (s * t) - 2 * (p * q)) * (2 * (s * t) - 2 * (p * q))).
    - unfold E, A. ring.
    - rewrite Hre, Him. ring. }
  assert (HAE : A = E + 4 * (s * p + t * q)) by (unfold A, E; ring).
  assert (Hsum : A = 2 * (M + N) - E) by (unfold A, E, M, N; ring).
  assert (HEe : E <= e).
  { destruct (Rle_dec E e) as [H | H]; [exact H | exfalso].
    assert (Hlt : e < E) by lra.
    assert (H1 : e * e < E * E) by (apply Rmult_le_0_lt_compat; lra).
    assert (H2 : E * E <= E * A) by (apply Rmult_le_compat_l; lra).
    lra. }
  assert (HM : N - e <= M) by (apply Hlow; lra).
  assert (HA : 4 * N - 3 * e <= A) by lra.
  assert (Hpos : 0 < 4 * N - 3 * e) by lra.
  assert (H1 : E * (4 * N - 3 * e) <= e * e).
  { rewrite <- HEA. apply Rmult_le_compat_l; assumption. }
  assert (H2 : e * e <= 1e-9 * 1e-9 * N * (4 * N - 3 * e)).
  { assert (Ha : 5.1e8 * e * (2.037e9 * e) <= N * (4 * N - 3 * e)).
    { apply Rmult_le_compat; lra. }
    assert (Hb : e * e <= 1e-9 * 1e-9 * (5.1e8 * e * (2.037e9 * e))).
    { replace (1e-9 * 1e-9 * (5.1e8 * e * (2.037e9 * e)))
        with (1.03887 * (e * e)) by lra.
      pose proof (Rmult_lt_0_compat _ _ He He). lra. }
    replace (1e-9 * 1e-9 * N * (4 * N - 3 * e))
      with (1e-9 * 1e-9 * (N * (4 * N - 3 * e))) by ring.
    lra. }
  apply Rmult_le_reg_r with (4 * N - 3 * e); [exact Hpos |]. lra.
Qed.

(** Roots of a number of size at most [4.9e8 e]: the squared distance
    exceeds [1e-18] times the squared size, aligned or not. *)
Lemma root_far (s t p q e : R) :
  0 < e ->
  s * s - t * t = p * p - q * q ->
  2 * (s * t) = 2 * (p * q) + e ->
  p * p + q * q <= 4.9e8 * e ->
  1e-9 * 1e-9 * (p * p + q * q)
    < (s - p) * (s - p) + (t - q) * (t - q).
Proof.
  intros He Hre Him Hsmall.
  destruct (root_size s t p q e He Hre Him) as [_ Hupp].
  set (N := p * p + q * q) in *. set (M := s * s + t * t) in *.
  set (E := (s - p) * (s - p) + (t - q) * (t - q)).
  set (A := (s + p) * (s + p) + (t + q) * (t + q)).
  assert (HN0 : 0 <= N).
  { pose proof (Rle_0_sqr p) as H1. pose proof (Rle_0_sqr q) as H2.
    unfold Rsqr in H1, H2. unfold N. lra. }
  assert (HE0 : 0 <= E).
  { pose proof (Rle_0_sqr (s - p)) as H1. pose proof (Rle_0_sqr (t - q)) as H2.
    unfold Rsqr in H1, H2. unfold E. lra. }
  assert (HEA : E * A = e * e).
  { replace (e * e)
      with ((s * s - t * t - (p * p - q * q)) * (s * s - t * t - (p * p - q * q))
            + (2 * (s * t) - 2 * (p * q)) * (2 * (s * t) - 2 * (p * q))).
    - unfold E, A. ring.
    - rewrite Hre, Him. ring. }
  assert (Hsum : A = 2 * (M + N) - E) by (unfold A, E, M, N; ring).
  assert (HA : A <= 4 * N + 2 * e) by lra.
  assert (HA0 : 0 <= A).
  { pose proof (Rle_0_sqr (s + p)) as H1. pose proof (Rle_0_sqr (t + q)) as H2.
    unfold Rsqr in H1, H2. unfold A. lra. }
  destruct (Rlt_dec (1e-9 * 1e-9 * N) E) as [H | H]; [exact H | exfalso].
  assert (HEN : E <= 1e-9 * 1e-9 * N) by lra.
  assert (H1 : E * A <= 1e-9 * 1e-9 * N * (4 * N + 2 * e)).
  { apply Rmult_le_compat; lra. }
  assert (H2 : N * (4 * N + 2 * e) <= 4.9e8 * e * (1.961e9 * e)).
  { apply Rmult_le_compat; lra. }
  assert (H3 : 1e-9 * 1e-9 * (4.9e8 * e * (1.961e9 * e)) = 0.96089 * (e * e))
    by lra.
  pose proof (Rmult_lt_0_compat _ _ He He) as Hee.
  replace (1e-9 * 1e-9 * N * (4 * N + 2 * e))
    with (1e-9 * 1e-9 * (N * (4 * N + 2 * e))) in H1 by ring.
  lra.
Qed.

Lemma Cabs_le_scaled (a b : C) (tol : R) :
  0 <= tol ->
  re a * re a + im a * im a <= tol * tol * (re b * re b + im b * im b) ->
  Cabs a <= tol * Cabs b.
Proof.
  intros Ht H. unfold Cabs.
  rewrite <- (sqrt_square tol) at 1 by exact Ht.
  rewrite <- sqrt_mult_alt by nra.
  apply sqrt_le_1_alt. exact H.
Qed.

End PrincipalRoot.

(** ** Round trip through the effective permittivity *)

Section RoundTrip.
Import Cplx HFSSMS Contracts.
Local Open Scope R_scope.

Lemma gamma2ereff_parts (x : C) (f : R) :
  gamma2ereff x f =
    mkC (- ((c0 / 2 / PI / f * re x) * (c0 / 2 / PI / f * re x)
            - (c0 / 2 / PI / f * im x) * (c0 / 2 / PI / f * im x)))
        (- (2 * ((c0 / 2 / PI / f * re x) * (c0 / 2 / PI / f * im x)))).
Proof. apply C_eq; simpl; ring. Qed.

Lemma roundtrip_unfold (x : C) (f : R) :
  roundtrip x f =
    Cmul (RtoC (2 * PI * f / c0))
         (Csqrt (mkC (- re (gamma2ereff x f)) (- im (gamma2ereff x f) + eps))).
Proof. unfold roundtrip, ereff2gamma. rewrite ereff2gamma_arg. reflexivity. Qed.

Lemma wave_inverse (f : R) :
  0 < f -> (2 * PI * f / c0) * (c0 / 2 / PI / f) = 1.
Proof.
  intros Hf. pose proof PI_RGT_0. pose proof c0_pos.
  field. repeat split; apply Rgt_not_eq; assumption.
Qed.

(** C1, the claim fails: [gamma = -j] has real part zero, yet the round
    trip returns a value of non-negative imaginary part, at distance more
    than [1] from [-j]. *)
Lemma roundtrip_fails_on_negative_imaginary :
  0 <= re (mkC 0 (-1)) /\ 0 < 1 /\
  ~ within_rel 1e-9 (roundtrip (mkC 0 (-1)) 1) (mkC 0 (-1)).
Proof.
  split; [simpl; lra |]. split; [lra |].
  unfold within_rel. intros Hle.
  set (g := roundtrip (mkC 0 (-1)) 1) in *.
  assert (Him : 0 <= im g).
  { unfold g. rewrite roundtrip_unfold, im_scale.
    apply Rmult_le_pos.
    - left. apply wavenumber_pos. lra.
    - apply Csqrt_im_nonneg. cbn [im].
      replace (im (gamma2ereff (mkC 0 (-1)) 1)) with 0 by (simpl; ring).
      pose proof eps_pos. lra. }
  pose proof (Cabs_ge_im (Csub g (mkC 0 (-1)))) as Hge.
  cbn [im Csub] in Hge.
  rewrite Rabs_pos_eq in Hge by lra.
  assert (Hone : Cabs (mkC 0 (-1)) = 1).
  { unfold Cabs; cbn [re im].
    replace (0 * 0 + -1 * -1) with 1 by ring. apply sqrt_1. }
  rewrite Hone in Hle. lra.
Qed.

(** The root and the scaled propagation constant point the same way in
    each of the three cases of the amended statement. *)
Lemma root_aligned (s t p q e : R) :
  0 < e -> 0 <= s -> 0 <= p ->
  s * s - t * t = p * p - q * q ->
  2 * (s * t) = 2 * (p * q) + e ->
  (0 <= 2 * (p * q) + e -> 0 <= t) ->
  (2 * (p * q) + e < 0 -> t <= 0) ->
  0 <= q \/ - q <= p \/ e < - (2 * (p * q)) ->
  0 <= s * p + t * q.
Proof.
  intros He Hs Hp Hre Him Hup Hdown Hcase.
  assert (Hsp : 0 <= s * p) by (apply Rmult_le_pos; assumption).
  destruct (Rle_dec 0 q) as [Hq | Hq].
  - assert (Ht : 0 <= t).
    { apply Hup. pose proof (Rmult_le_pos _ _ Hp Hq). lra. }
    pose proof (Rmult_le_pos _ _ Ht Hq). lra.
  - assert (Hq' : q < 0) by lra.
    destruct Hcase as [Hc | [Hc | Hc]]; [lra | |].
    + assert (Hst : t <= s).
      { destruct (Rle_dec t s) as [H | H]; [exact H | exfalso].
        assert (Hts : s < t) by lra.
        assert (Hsq : s * s < t * t)
          by (apply Rmult_le_0_lt_compat; assumption).
        assert (Hpq : q * q <= p * p).
        { replace (q * q) with ((- q) * (- q)) by ring.
          apply Rmult_le_compat; lra. }
        lra. }
      assert (Hsq : s * q <= t * q).
      { replace (s * q) with (- (s * - q)) by ring.
        replace (t * q) with (- (t * - q)) by ring.
        apply Ropp_le_contravar, Rmult_le_compat_r; lra. }
      assert (Hspq : 0 <= s * (p + q)) by (apply Rmult_le_pos; lra).
      lra.
    + assert (Ht : t <= 0) by (apply Hdown; lra).
      replace (t * q) with ((- t) * (- q)) by ring.
      assert (0 <= (- t) * (- q)) by (apply Rmult_le_pos; lra).
      lra.
Qed.

(** C1, as amended: for a propagation constant [x] with [Re x >= 0] whose
    effective permittivity has magnitude at least [5.1e8 eps], and [f > 0],
    the round trip reproduces [x] to within the relative tolerance [1e-9]
    in each of these cases: [Im x >= 0]; or [Re x >= - Im x]; or the
    imaginary part of the effective permittivity exceeds [eps].  What is
    left out is the sliver along the negative imaginary axis, where the
    offset [j eps] carries the argument of the square root across the
    branch cut. *)
Theorem roundtrip_off_branch_cut (x : C) (f : R) :
  0 <= re x -> 0 < f ->
  5.1e8 * eps <= Cabs (gamma2ereff x f) ->
  0 <= im x \/ - im x <= re x \/ eps < im (gamma2ereff x f) ->
  within_rel 1e-9 (roundtrip x f) x.
Proof.
  intros Ha Hf Hbig Hcase.
  pose proof (wavelength_pos f Hf) as HK.
  pose proof (wavenumber_pos f Hf) as Hk.
  pose proof (wave_inverse f Hf) as HkK.
  pose proof eps_pos as He.
  rewrite gamma2ereff_parts in Hbig, Hcase.
  unfold within_rel. rewrite roundtrip_unfold, gamma2ereff_parts.
  set (K := c0 / 2 / PI / f) in *. set (k := 2 * PI * f / c0) in *.
  set (p := K * re x) in *. set (q := K * im x) in *.
  assert (Hp : 0 <= p) by (unfold p; apply Rmult_le_pos; lra).
  cbn [re im] in Hcase |- *.
  replace (- - (p * p - q * q)) with (p * p - q * q) by ring.
  replace (- - (2 * (p * q)) + eps) with (2 * (p * q) + eps) by ring.
  set (z := mkC (p * p - q * q) (2 * (p * q) + eps)).
  set (N := p * p + q * q).
  assert (HN : Cabs (mkC (- (p * p - q * q)) (- (2 * (p * q)))) = N).
  { unfold Cabs; cbn [re im].
    replace (- (p * p - q * q) * - (p * p - q * q)
             + - (2 * (p * q)) * - (2 * (p * q))) with (N * N)
      by (unfold N; ring).
    apply sqrt_square. unfold N.
    pose proof (Rle_0_sqr p) as H1. pose proof (Rle_0_sqr q) as H2.
    unfold Rsqr in H1, H2. lra. }
  rewrite HN in Hbig.
  pose proof (Csqrt_re_nonneg z) as Hs.
  pose proof (Csqrt_im_nonneg z) as Hup.
  pose proof (Csqrt_im_nonpos z) as Hdown.
  pose proof (f_equal re (Csqr_Csqrt z)) as Hre.
  pose proof (Csqrt_cross z) as Hcross.
  unfold Csqr, Cmul in Hre. cbn [re im] in Hre.
  set (s := re (Csqrt z)) in *. set (t := im (Csqrt z)) in *.
  unfold z in Hre, Hcross, Hup, Hdown. cbn [re im] in Hre, Hcross, Hup, Hdown.
  assert (Hcase' : 0 <= q \/ - q <= p \/ eps < - (2 * (p * q))).
  { destruct Hcase as [Hc | [Hc | Hc]].
    - left. unfold q. apply Rmult_le_pos; lra.
    - right. left. unfold p, q.
      replace (- (K * im x)) with (K * - im x) by ring.
      apply Rmult_le_compat_l; lra.
    - right. right. exact Hc. }
  pose proof (root_aligned s t p q eps He Hs Hp Hre Hcross Hup Hdown Hcase')
    as Hal.
  pose proof (aligned_root_close s t p q eps He Hre Hcross Hal Hbig) as HE.
  fold N in HE.
  set (E := (s - p) * (s - p) + (t - q) * (t - q)) in *.
  apply Cabs_le_scaled; [lra |].
  assert (Hx1 : re x = k * p).
  { unfold p. rewrite <- Rmult_assoc, HkK. ring. }
  assert (Hx2 : im x = k * q).
  { unfold q. rewrite <- Rmult_assoc, HkK. ring. }
  unfold Csub, Cmul, RtoC. cbn [re im]. fold s t. rewrite Hx1, Hx2.
  replace ((k * s - 0 * t - k * p) * (k * s - 0 * t - k * p)
           + (k * t + 0 * s - k * q) * (k * t + 0 * s - k * q))
    with (k * k * E) by (unfold E; ring).
  replace (1e-9 * 1e-9 * (k * p * (k * p) + k * q * (k * q)))
    with (k * k * (1e-9 * 1e-9 * N)) by (unfold N; ring).
  apply Rmult_le_compat_l; [| exact HE].
  pose proof (Rle_0_sqr k) as Hkk. unfold Rsqr in Hkk. exact Hkk.
Qed.

Lemma Cabs_le_parts (a : C) : Cabs a <= Rabs (re a) + Rabs (im a).
Proof.
  unfold Cabs.
  rewrite <- (sqrt_square (Rabs (re a) + Rabs (im a)))
    by (pose proof (Rabs_pos (re a)); pose proof (Rabs_pos (im a)); lra).
  apply sqrt_le_1_alt.
  pose proof (Rabs_pos (re a)) as H1. pose proof (Rabs_pos (im a)) as H2.
  pose proof (Rmult_le_pos _ _ H1 H2) as H3.
  replace (re a * re a) with (Rabs (re a) * Rabs (re a))
    by (rewrite <- Rabs_mult; apply Rabs_pos_eq;
        pose proof (Rle_0_sqr (re a)) as H; unfold Rsqr in H; exact H).
  replace (im a * im a) with (Rabs (im a) * Rabs (im a))
    by (rewrite <- Rabs_mult; apply Rabs_pos_eq;
        pose proof (Rle_0_sqr (im a)) as H; unfold Rsqr in H; exact H).
  lra.
Qed.

(** The sliver that the amended statement leaves out is lost entirely:
    below the diagonal of the fourth quadrant, once the imaginary part of
    the effective permittivity is at most [eps], the round trip returns a
    value of non-negative imaginary part and misses the tolerance. *)
Lemma roundtrip_fails_in_sliver (x : C) (f : R) :
  0 <= re x -> im x < 0 -> re x < - im x -> 0 < f ->
  im (gamma2ereff x f) <= eps ->
  ~ within_rel 1e-9 (roundtrip x f) x.
Proof.
  intros Ha Hb Hdiag Hf Him. unfold within_rel. intros Hle.
  set (g := roundtrip x f) in *.
  assert (Hg : 0 <= im g).
  { unfold g. rewrite roundtrip_unfold, im_scale.
    apply Rmult_le_pos.
    - left. apply wavenumber_pos, Hf.
    - apply Csqrt_im_nonneg. cbn [im]. lra. }
  pose proof (Cabs_ge_im (Csub g x)) as Hge.
  cbn [im Csub] in Hge. rewrite Rabs_pos_eq in Hge by lra.
  pose proof (Cabs_le_parts x) as Hx.
  rewrite (Rabs_pos_eq (re x)) in Hx by exact Ha.
  rewrite (Rabs_left (im x)) in Hx by exact Hb.
  lra.
Qed.

(** The bound on the magnitude is needed, and nearly sharp: when the
    effective permittivity has magnitude at most [4.9e8 eps], the round
    trip misses the tolerance for every propagation constant. *)
Lemma roundtrip_fails_below_threshold (x : C) (f : R) :
  0 < f ->
  Cabs (gamma2ereff x f) <= 4.9e8 * eps ->
  ~ within_rel 1e-9 (roundtrip x f) x.
Proof.
  intros Hf Hsmall.
  pose proof (wavelength_pos f Hf) as HK.
  pose proof (wavenumber_pos f Hf) as Hk.
  pose proof (wave_inverse f Hf) as HkK.
  pose proof eps_pos as He.
  rewrite gamma2ereff_parts in Hsmall.
  unfold within_rel. rewrite roundtrip_unfold, gamma2ereff_parts.
  set (K := c0 / 2 / PI / f) in *. set (k := 2 * PI * f / c0) in *.
  set (p := K * re x) in *. set (q := K * im x) in *.
  cbn [re im].
  replace (- - (p * p - q * q)) with (p * p - q * q) by ring.
  replace (- - (2 * (p * q)) + eps) with (2 * (p * q) + eps) by ring.
  set (z := mkC (p * p - q * q) (2 * (p * q) + eps)).
  set (N := p * p + q * q).
  assert (HN : Cabs (mkC (- (p * p - q * q)) (- (2 * (p * q)))) = N).
  { unfold Cabs; cbn [re im].
    replace (- (p * p - q * q) * - (p * p - q * q)
             + - (2 * (p * q)) * - (2 * (p * q))) with (N * N)
      by (unfold N; ring).
    apply sqrt_square. unfold N.
    pose proof (Rle_0_sqr p) as H1. pose proof (Rle_0_sqr q) as H2.
    unfold Rsqr in H1, H2. lra. }
  rewrite HN in Hsmall.
  pose proof (f_equal re (Csqr_Csqrt z)) as Hre.
  pose proof (Csqrt_cross z) as Hcross.
  unfold Csqr, Cmul in Hre. cbn [re im] in Hre.
  set (s := re (Csqrt z)) in *. set (t := im (Csqrt z)) in *.
  unfold z in Hre, Hcross. cbn [re im] in Hre, Hcross.
  pose proof (root_far s t p q eps He Hre Hcross Hsmall) as Hfar.
  fold N in Hfar.
  set (E := (s - p) * (s - p) + (t - q) * (t - q)) in *.
  intros Hle.
  assert (Hx1 : re x = k * p).
  { unfold p. rewrite <- Rmult_assoc, HkK. ring. }
  assert (Hx2 : im x = k * q).
  { unfold q. rewrite <- Rmult_assoc, HkK. ring. }
  set (a := Csub (Cmul (RtoC k) (mkC s t)) x) in *.
  assert (Ha2 : Cabs a * Cabs a = k * k * E).
  { rewrite Cabs_sqr. unfold a. cbn [re im Csub Cmul RtoC].
    rewrite Hx1, Hx2. unfold E. ring. }
  assert (Hx2' : Cabs x * Cabs x = k * k * N).
  { rewrite Cabs_sqr, Hx1, Hx2. unfold N. ring. }
  assert (Hsq : Cabs a * Cabs a <= (1e-9 * Cabs x) * (1e-9 * Cabs x)).
  { pose proof (Cabs_nonneg a). apply Rmult_le_compat; assumption. }
  replace ((1e-9 * Cabs x) * (1e-9 * Cabs x))
    with (1e-9 * 1e-9 * (Cabs x * Cabs x)) in Hsq by ring.
  rewrite Ha2, Hx2' in Hsq.
  assert (Hkk : 0 < k * k) by (apply Rmult_lt_0_compat; assumption).
  assert (HEN : E <= 1e-9 * 1e-9 * N).
  { apply Rmult_le_reg_l with (k * k); [exact Hkk |]. lra. }
  lra.
Qed.

End RoundTrip.

Section RoundTripWitness.
Import Cplx HFSSMS Contracts.
Local Open Scope R_scope.

Lemma c0_ge_1 : 1 <= c0.
Proof.
  unfold c0.
  assert (Hs : sqrt (mu0 * ep0) <= 1).
  { rewrite <- sqrt_1. apply sqrt_le_1_alt. unfold mu0, ep0. lra. }
  assert (Hpos : 0 < sqrt (mu0 * ep0)) by apply sqrt_lt_R0, mu0_ep0_pos.
  apply Rmult_le_reg_r with (sqrt (mu0 * ep0)); [exact Hpos |].
  unfold Rdiv. rewrite Rmult_assoc, Rinv_l by lra. lra.
Qed.

Lemma eps_small : 1e9 * eps <= / 64.
Proof.
  unfold eps.
  replace (2 ^ 52) with 4503599627370496 by (simpl; ring).
  lra.
Qed.

Lemma ereff_unit_large :
  5.1e8 * eps <= Cabs (gamma2ereff (mkC 1 (-1)) 1).
Proof.
  rewrite gamma2ereff_parts. cbn [re im].
  set (K := c0 / 2 / PI / 1).
  assert (HK : / 8 <= K).
  { unfold K. pose proof c0_ge_1. pose proof PI_4. pose proof PI_RGT_0.
    replace (c0 / 2 / PI / 1) with (c0 / (2 * PI)) by (field; lra).
    apply Rmult_le_reg_r with (2 * PI); [lra |].
    replace (c0 / (2 * PI) * (2 * PI)) with c0 by (field; lra).
    lra. }
  apply Rle_trans with (/ 64).
  { pose proof eps_small. pose proof eps_pos. lra. }
  apply Rle_trans with (Rabs (- (2 * (K * 1 * (K * -1))))).
  - replace (- (2 * (K * 1 * (K * -1)))) with (2 * (K * K)) by ring.
    rewrite Rabs_pos_eq by nra. nra.
  - apply (Cabs_ge_im (mkC _ _)).
Qed.

Lemma roundtrip_off_branch_cut_witness :
  within_rel 1e-9 (roundtrip (mkC 1 (-1)) 1) (mkC 1 (-1)).
Proof.
  apply (roundtrip_off_branch_cut (mkC 1 (-1)) 1).
  - simpl. lra.
  - lra.
  - exact ereff_unit_large.
  - right. left. simpl. lra.
Defined.

End RoundTripWitness.

Section RoundTripNearZero.
Import Cplx HFSSMS Contracts.
Local Open Scope R_scope.

(** Why the amended statement bounds the magnitude from below: at
    [gamma = 0] the offset [eps] alone decides the result, which is not
    zero. *)
Lemma roundtrip_not_exact_at_zero :
  ~ within_rel 1e-9 (roundtrip (mkC 0 0) 1) (mkC 0 0).
Proof.
  unfold within_rel. intros Hle.
  assert (Hz : Cabs (mkC 0 0) = 0).
  { unfold Cabs; cbn [re im]. replace (0 * 0 + 0 * 0) with 0 by ring.
    apply sqrt_0. }
  rewrite Hz, Rmult_0_r in Hle.
  pose proof (Cabs_ge_re (Csub (roundtrip (mkC 0 0) 1) (mkC 0 0))) as Hge.
  assert (Hpos : 0 < re (roundtrip (mkC 0 0) 1)).
  { rewrite roundtrip_unfold, re_scale.
    apply Rmult_lt_0_compat; [apply wavenumber_pos; lra |].
    unfold Csqrt; cbn [re im]. apply sqrt_lt_R0.
    replace (re (gamma2ereff (mkC 0 0) 1)) with 0 by (simpl; ring).
    replace (im (gamma2ereff (mkC 0 0) 1)) with 0 by (simpl; ring).
    pose proof eps_pos as He.
    assert (Hm : 0 < Cabs (mkC (- 0) (- 0 + eps))).
    { apply Cabs_pos. intros H. apply (f_equal im) in H. simpl in H. lra. }
    lra. }
  cbn [re Csub] in Hge. rewrite Rabs_pos_eq in Hge by lra. lra.
Qed.

End RoundTripNearZero.

(** ** Default filling *)

Section DefaultFilling.
Import Cplx Layers.

Lemma fill_dict_cons (key : string) (keys : list string)
    (d m : gmap string value) :
  fill_dict (key :: keys) d m = fill_dict keys d (fill_step d m key).
Proof. reflexivity. Qed.

(** The contents of a filled dictionary, key by key. *)
Lemma fill_dict_lookup (keys : list string) (d m : gmap string value)
    (k : string) :
  fill_dict keys d m !! k =
    match m !! k with
    | Some v => Some v
    | None => if decide (k ∈ keys) then Some (dict_get d k) else None
    end.
Proof.
  revert m. induction keys as [| a keys IH]; intros m.
  - simpl. destruct (m !! k); [reflexivity |].
    destruct (decide (k ∈ [])) as [Hin | _]; [| reflexivity].
    apply elem_of_nil in Hin. contradiction.
  - rewrite fill_dict_cons, IH. unfold fill_step.
    destruct (m !! a) as [va |] eqn:Ha.
    + destruct (m !! k) as [vk |] eqn:Hk; [reflexivity |].
      assert (k ≠ a) by congruence.
      apply decide_ext. rewrite elem_of_cons. tauto.
    + destruct (decide (k = a)) as [-> | Hne].
      * rewrite lookup_insert_eq, Ha.
        rewrite decide_True by (apply elem_of_cons; left; reflexivity).
        reflexivity.
      * rewrite lookup_insert_ne by congruence.
        destruct (m !! k); [reflexivity |].
        apply decide_ext. rewrite elem_of_cons. tauto.
Qed.

Lemma fill_dict_keeps (keys : list string) (d m : gmap string value)
    (k : string) (v : value) :
  m !! k = Some v -> fill_dict keys d m !! k = Some v.
Proof. intros H. rewrite fill_dict_lookup, H. reflexivity. Qed.

Lemma fill_dict_has (keys : list string) (d m : gmap string value)
    (k : string) :
  k ∈ keys -> is_Some (fill_dict keys d m !! k).
Proof.
  intros Hin. rewrite fill_dict_lookup.
  destruct (m !! k); [eauto |].
  destruct (decide (k ∈ keys)); [eauto | contradiction].
Qed.

(** A dictionary that has every required key is left as it is. *)
Lemma fill_dict_complete (keys : list string) (d m : gmap string value) :
  (forall k, k ∈ keys -> is_Some (m !! k)) -> fill_dict keys d m = m.
Proof.
  intros Hall. apply map_eq. intros k. rewrite fill_dict_lookup.
  destruct (m !! k) eqn:Hk; [reflexivity |].
  destruct (decide (k ∈ keys)) as [Hin | _]; [| reflexivity].
  destruct (Hall k Hin) as [v Hv]. congruence.
Qed.

Lemma fill_dict_twice (keys : list string) (d d' m : gmap string value) :
  fill_dict keys d' (fill_dict keys d m) = fill_dict keys d m.
Proof. apply fill_dict_complete. intros k. apply fill_dict_has. Qed.

(** Reading a default from the filled default table gives what the table
    gave before: a key it lacked was filled with [None]. *)
Lemma dict_get_fill_dict (keys : list string) (d : gmap string value)
    (k : string) :
  dict_get (fill_dict keys d d) k = dict_get d k.
Proof.
  unfold dict_get at 1. rewrite fill_dict_lookup.
  unfold dict_get. destruct (d !! k); [reflexivity |].
  destruct (decide (k ∈ keys)); reflexivity.
Qed.

(** The inner loop on one material: whatever the default table currently
    holds, as long as it still answers [get] like [d]. *)
Lemma fill_material_run (keys : list string) (dv l : loc)
    (d : gmap string value) :
  forall (h : gmap loc obj) (m dc : gmap string value),
    h !! l = Some (ODict m) ->
    h !! dv = Some (ODict dc) ->
    (forall k, dict_get dc k = dict_get d k) ->
    fill_material keys dv l h = Some (<[l := ODict (fill_dict keys d m)]> h).
Proof.
  induction keys as [| key keys IH]; intros h m dc Hl Hdv Hget.
  - simpl. rewrite insert_id by exact Hl. reflexivity.
  - rewrite fill_dict_cons. cbn [fill_material].
    unfold fill_key, fill_step. rewrite Hl.
    destruct (m !! key) as [v |] eqn:Hkey.
    + apply (IH h m dc); assumption.
    + rewrite Hdv, Hget.
      set (m1 := <[key := dict_get d key]> m).
      destruct (decide (l = dv)) as [-> | Hne].
      * assert (dc = m) by congruence. subst dc.
        rewrite (IH _ m1 m1).
        -- rewrite insert_insert_eq. reflexivity.
        -- apply lookup_insert_eq.
        -- apply lookup_insert_eq.
        -- intros k. unfold m1, dict_get at 1.
           destruct (decide (key = k)) as [-> | Hk].
           ++ rewrite lookup_insert_eq. reflexivity.
           ++ rewrite lookup_insert_ne by exact Hk. apply Hget.
      * rewrite (IH _ m1 dc).
        -- rewrite insert_insert_eq. reflexivity.
        -- apply lookup_insert_eq.
        -- rewrite lookup_insert_ne by exact Hne. exact Hdv.
        -- exact Hget.
Qed.

Lemma filled_store_lookup (keys : list string) (d : gmap string value)
    (done : list loc) (h : gmap loc obj) (l : loc) :
  filled_store keys d done h !! l =
    (fun o => if decide (l ∈ done) then fill_obj keys d o else o) <$> h !! l.
Proof.
  unfold filled_store. rewrite map_lookup_imap.
  destruct (h !! l); reflexivity.
Qed.

Lemma filled_store_nil (keys : list string) (d : gmap string value)
    (h : gmap loc obj) :
  filled_store keys d [] h = h.
Proof.
  apply map_eq. intros l. rewrite filled_store_lookup.
  destruct (h !! l); simpl; [| reflexivity].
  destruct (decide (l ∈ [])) as [Hin | _]; [| reflexivity].
  apply elem_of_nil in Hin. contradiction.
Qed.

(** The outer loop, started after the materials in [done] were processed. *)
Lemma fill_materials_run (keys : list string) (dv : loc)
    (d : gmap string value) (h0 : gmap loc obj) :
  h0 !! dv = Some (ODict d) ->
  forall rest done,
    Forall (is_dict h0) rest ->
    fill_materials keys dv rest (filled_store keys d done h0) =
      Some (filled_store keys d (done ++ rest) h0).
Proof.
  intros Hdv rest. induction rest as [| l rest IH]; intros done Hrest.
  - simpl. rewrite app_nil_r. reflexivity.
  - apply Forall_cons in Hrest as [[m Hm] Hrest]. simpl.
    set (hc := filled_store keys d done h0).
    set (mc := if decide (l ∈ done) then fill_dict keys d m else m).
    set (dc := if decide (dv ∈ done) then fill_dict keys d d else d).
    assert (Hl : hc !! l = Some (ODict mc)).
    { unfold hc, mc. rewrite filled_store_lookup, Hm. simpl.
      destruct (decide (l ∈ done)); reflexivity. }
    assert (Hd : hc !! dv = Some (ODict dc)).
    { unfold hc, dc. rewrite filled_store_lookup, Hdv. simpl.
      destruct (decide (dv ∈ done)); reflexivity. }
    assert (Hget : forall k, dict_get dc k = dict_get d k).
    { intros k. unfold dc. destruct (decide (dv ∈ done));
        [apply dict_get_fill_dict | reflexivity]. }
    rewrite (fill_material_run keys dv l d hc mc dc Hl Hd Hget).
    assert (Hstep : <[l := ODict (fill_dict keys d mc)]> hc =
                    filled_store keys d (done ++ [l]) h0).
    { apply map_eq. intros l'. rewrite filled_store_lookup.
      destruct (decide (l = l')) as [<- | Hne].
      - rewrite lookup_insert_eq, Hm. simpl.
        rewrite decide_True
          by (apply elem_of_app; right; apply list_elem_of_singleton; reflexivity).
        simpl. f_equal. f_equal. unfold mc.
        destruct (decide (l ∈ done)); [apply fill_dict_twice | reflexivity].
      - rewrite lookup_insert_ne by exact Hne.
        unfold hc. rewrite filled_store_lookup.
        destruct (h0 !! l'); simpl; [| reflexivity].
        f_equal. apply decide_ext.
        rewrite elem_of_app, list_elem_of_singleton. split; [tauto |].
        intros [Hin | Heq]; [exact Hin | congruence]. }
    rewrite Hstep, (IH (done ++ [l]) Hrest).
    rewrite <- app_assoc. reflexivity.
Qed.

(** [fill_missing_vals] on a well-formed call, in closed form. *)
Lemma fill_missing_vals_run (keys : list string) (dv mp : loc)
    (d : gmap string value) (materials : list loc) (h : gmap loc obj) :
  layers_at h mp materials ->
  h !! dv = Some (ODict d) ->
  fill_missing_vals keys dv mp h =
    Some (filled_store keys d materials h, mp).
Proof.
  intros [Hmp Hall] Hdv. unfold fill_missing_vals. rewrite Hmp.
  pose proof (fill_materials_run keys dv d h Hdv materials [] Hall) as Hrun.
  rewrite filled_store_nil in Hrun. simpl in Hrun. rewrite Hrun.
  reflexivity.
Qed.

End DefaultFilling.

Section DefaultFillingClaims.
Import Cplx Layers.

Lemma filled_store_layers (keys : list string) (d : gmap string value)
    (mp : loc) (materials : list loc) (h : gmap loc obj) :
  layers_at h mp materials ->
  layers_at (filled_store keys d materials h) mp materials.
Proof.
  intros [Hmp Hall]. split.
  - rewrite filled_store_lookup, Hmp. simpl.
    destruct (decide (mp ∈ materials)); reflexivity.
  - apply Forall_forall. intros l Hl.
    apply (proj1 (Forall_forall _ _) Hall) in Hl as Hd.
    destruct Hd as [m Hm]. unfold is_dict.
    rewrite filled_store_lookup, Hm. simpl.
    destruct (decide (l ∈ materials)); eauto.
Qed.

Lemma filled_store_again (keys : list string) (d d' : gmap string value)
    (materials : list loc) (h : gmap loc obj) :
  filled_store keys d' materials (filled_store keys d materials h) =
  filled_store keys d materials h.
Proof.
  apply map_eq. intros l. rewrite !filled_store_lookup.
  destruct (h !! l) as [o |]; simpl; [| reflexivity].
  destruct (decide (l ∈ materials)); [| reflexivity].
  destruct o as [m | items]; simpl; [| reflexivity].
  rewrite fill_dict_twice. reflexivity.
Qed.

Lemma example_layers : layers_at example_store 2%positive [1%positive].
Proof.
  split; [reflexivity |].
  constructor; [| constructor].
  exists bare_layer. reflexivity.
Qed.

Lemma example_defaults :
  example_store !! 3%positive = Some (ODict default_values).
Proof. reflexivity. Qed.

Lemma default_mur : Csub (RtoC 1) (mkC 0 0) = RtoC 1.
Proof. apply C_eq; simpl; ring. Qed.

(** C3, the claim fails: on a layer that gives only [Rrms], the call returns
    the list it was given and the caller's dictionary now holds [sigma]. *)
Lemma fill_missing_vals_mutates_layer :
  exists h',
    fill_missing_vals required_keys 3%positive 2%positive example_store
      = Some (h', 2%positive) /\
    example_store !! 1%positive = Some (ODict bare_layer) /\
    bare_layer !! "sigma"%string = None /\
    h' !! 1%positive <> example_store !! 1%positive /\
    exists m', h' !! 1%positive = Some (ODict m') /\
               m' !! "sigma"%string = Some (VFloat 58e6%R).
Proof.
  eexists. split.
  { apply (fill_missing_vals_run required_keys 3%positive 2%positive
             default_values [1%positive] example_store).
    - exact example_layers.
    - exact example_defaults. }
  assert (Hnew : filled_store required_keys default_values [1%positive]
                   example_store !! 1%positive
                 = Some (ODict (fill_dict required_keys default_values
                                  bare_layer))).
  { rewrite filled_store_lookup. reflexivity. }
  assert (Hsigma : fill_dict required_keys default_values bare_layer
                     !! "sigma"%string = Some (VFloat 58e6%R)).
  { rewrite fill_dict_lookup. reflexivity. }
  split; [reflexivity |]. split; [reflexivity |]. split.
  - rewrite Hnew. intros Heq.
    assert (Hb : fill_dict required_keys default_values bare_layer
                 = bare_layer).
    { change (example_store !! 1%positive) with (Some (ODict bare_layer))
        in Heq. congruence. }
    rewrite Hb in Hsigma. discriminate Hsigma.
  - eexists. split; [exact Hnew | exact Hsigma].
Qed.

(** C3, as amended: the call works in place.  It returns the list it was
    given; objects outside that list are unchanged; in each layer
    dictionary of the list the keys already present keep their values and
    exactly the missing required keys are added, so a layer that has every
    required key is unchanged. *)
Theorem fill_missing_vals_in_place (keys : list string) (dv mp : loc)
    (materials : list loc) (h : gmap loc obj) :
  layers_at h mp materials -> is_dict h dv ->
  exists h',
    fill_missing_vals keys dv mp h = Some (h', mp) /\
    (forall l, l ∉ materials -> h' !! l = h !! l) /\
    (forall l m, l ∈ materials -> h !! l = Some (ODict m) ->
       exists m',
         h' !! l = Some (ODict m') /\
         (forall k v, m !! k = Some v -> m' !! k = Some v) /\
         (forall k, is_Some (m' !! k) <-> is_Some (m !! k) \/ k ∈ keys) /\
         ((forall k, k ∈ keys -> is_Some (m !! k)) -> m' = m)).
Proof.
  intros Hlay [d Hdv].
  exists (filled_store keys d materials h). split; [| split].
  - apply fill_missing_vals_run; assumption.
  - intros l Hnin. rewrite filled_store_lookup.
    destruct (h !! l); simpl; [| reflexivity].
    rewrite decide_False by exact Hnin. reflexivity.
  - intros l m Hin Hm. exists (fill_dict keys d m). repeat split.
    + rewrite filled_store_lookup, Hm. simpl.
      rewrite decide_True by exact Hin. reflexivity.
    + intros k v. apply fill_dict_keeps.
    + rewrite fill_dict_lookup. destruct (m !! k) eqn:Hk.
      * intros _. left. eauto.
      * destruct (decide (k ∈ keys)) as [Hkin | Hkn].
        -- intros _. right. exact Hkin.
        -- intros [v Hv]. discriminate Hv.
    + rewrite fill_dict_lookup. intros [[v Hv] | Hkin].
      * rewrite Hv. eauto.
      * destruct (m !! k); [eauto |].
        rewrite decide_True by exact Hkin. eauto.
    + apply fill_dict_complete.
Qed.

Lemma fill_missing_vals_in_place_witness :
  exists h',
    fill_missing_vals required_keys 3%positive 2%positive example_store
      = Some (h', 2%positive) /\
    (forall l, l ∉ [1%positive] -> h' !! l = example_store !! l) /\
    (forall l m, l ∈ [1%positive] -> example_store !! l = Some (ODict m) ->
       exists m',
         h' !! l = Some (ODict m') /\
         (forall k v, m !! k = Some v -> m' !! k = Some v) /\
         (forall k, is_Some (m' !! k) <->
                    is_Some (m !! k) \/ k ∈ required_keys) /\
         ((forall k, k ∈ required_keys -> is_Some (m !! k)) -> m' = m)).
Proof.
  apply (fill_missing_vals_in_place required_keys 3%positive 2%positive
           [1%positive] example_store).
  - exact example_layers.
  - exists default_values. exact example_defaults.
Defined.

(** C4: on a list of layer dictionaries, running the default filling on
    its own result returns that result again: the same list and the same
    store. *)
Theorem fill_missing_vals_idempotent (keys : list string) (dv mp : loc)
    (materials : list loc) (h : gmap loc obj) :
  layers_at h mp materials -> is_dict h dv ->
  exists h',
    fill_missing_vals keys dv mp h = Some (h', mp) /\
    fill_missing_vals keys dv mp h' = Some (h', mp).
Proof.
  intros Hlay [d Hdv].
  exists (filled_store keys d materials h). split.
  - apply fill_missing_vals_run; assumption.
  - pose proof (filled_store_layers keys d mp materials h Hlay) as Hlay'.
    assert (Hdv' : exists d', filled_store keys d materials h !! dv
                              = Some (ODict d')).
    { rewrite filled_store_lookup, Hdv. simpl.
      destruct (decide (dv ∈ materials)); eauto. }
    destruct Hdv' as [d' Hdv'].
    rewrite (fill_missing_vals_run keys dv mp d' materials _ Hlay' Hdv').
    rewrite filled_store_again. reflexivity.
Qed.

Lemma fill_missing_vals_idempotent_witness :
  exists h',
    fill_missing_vals required_keys 3%positive 2%positive example_store
      = Some (h', 2%positive) /\
    fill_missing_vals required_keys 3%positive 2%positive h'
      = Some (h', 2%positive).
Proof.
  apply (fill_missing_vals_idempotent required_keys 3%positive 2%positive
           [1%positive] example_store).
  - exact example_layers.
  - exists default_values. exact example_defaults.
Defined.

(** C5: with the required keys and the default table of [run_simulation],
    every layer of the list keeps each key it had at the caller's value, and
    a layer lacking a required key gets the table's entry: [sigma = 58e6],
    [mur = 1], [er = None], [Rrms = 0], [boundary_loc = 0],
    [distribution = 'norm']. *)
Theorem fill_missing_vals_defaults (dv mp : loc) (materials : list loc)
    (h : gmap loc obj) :
  layers_at h mp materials ->
  h !! dv = Some (ODict default_values) ->
  exists h',
    fill_missing_vals required_keys dv mp h = Some (h', mp) /\
    forall l m, l ∈ materials -> h !! l = Some (ODict m) ->
      exists m',
        h' !! l = Some (ODict m') /\
        (forall k v, m !! k = Some v -> m' !! k = Some v) /\
        (m !! "sigma"%string = None ->
           m' !! "sigma"%string = Some (VFloat 58e6%R)) /\
        (m !! "mur"%string = None ->
           m' !! "mur"%string = Some (VComplex (RtoC 1))) /\
        (m !! "er"%string = None -> m' !! "er"%string = Some VNone) /\
        (m !! "Rrms"%string = None -> m' !! "Rrms"%string = Some (VInt 0)) /\
        (m !! "boundary_loc"%string = None ->
           m' !! "boundary_loc"%string = Some (VInt 0)) /\
        (m !! "distribution"%string = None ->
           m' !! "distribution"%string = Some (VStr "norm")).
Proof.
  intros Hlay Hdv.
  exists (filled_store required_keys default_values materials h). split.
  - apply fill_missing_vals_run; assumption.
  - intros l m Hin Hm.
    exists (fill_dict required_keys default_values m). split.
    { rewrite filled_store_lookup, Hm. simpl.
      rewrite decide_True by exact Hin. reflexivity. }
    split; [intros k v; apply fill_dict_keeps |].
    repeat split; intros Hk; rewrite fill_dict_lookup, Hk;
      try reflexivity.
    change (Some (VComplex (Csub (RtoC 1) (mkC 0 0)))
            = Some (VComplex (RtoC 1))).
    rewrite default_mur. reflexivity.
Qed.

Lemma fill_missing_vals_defaults_witness :
  exists h',
    fill_missing_vals required_keys 3%positive 2%positive example_store
      = Some (h', 2%positive) /\
    forall l m, l ∈ [1%positive] -> example_store !! l = Some (ODict m) ->
      exists m',
        h' !! l = Some (ODict m') /\
        (forall k v, m !! k = Some v -> m' !! k = Some v) /\
        (m !! "sigma"%string = None ->
           m' !! "sigma"%string = Some (VFloat 58e6%R)) /\
        (m !! "mur"%string = None ->
           m' !! "mur"%string = Some (VComplex (RtoC 1))) /\
        (m !! "er"%string = None -> m' !! "er"%string = Some VNone) /\
        (m !! "Rrms"%string = None -> m' !! "Rrms"%string = Some (VInt 0)) /\
        (m !! "boundary_loc"%string = None ->
           m' !! "boundary_loc"%string = Some (VInt 0)) /\
        (m !! "distribution"%string = None ->
           m' !! "distribution"%string = Some (VStr "norm")).
Proof.
  apply (fill_missing_vals_defaults 3%positive 2%positive [1%positive]
           example_store).
  - exact example_layers.
  - exact example_defaults.
Defined.

End DefaultFillingClaims.

(** ** The stored per-frequency arrays *)

Section StoredArrays.
Import Ctor Contracts.
Local Open Scope R_scope.

Lemma length_ones_like (a : list R) : length (ones_like a) = length a.
Proof. unfold ones_like. apply repeat_length. Qed.

Lemma length_mul_pointwise (xs ys : list R) :
  length xs = length ys -> length (mul_pointwise xs ys) = length ys.
Proof.
  revert ys. induction xs as [| x xs IH]; intros [| y ys] Hlen;
    simpl in *; try discriminate; [reflexivity |].
  f_equal. apply IH. congruence.
Qed.

(** When the second operand has a length other than one, an accepted
    product has the second operand's length. *)
Lemma mul_broadcast_length (x : ndarray) (a r : list R) :
  length a <> 1%nat ->
  mul_broadcast x a = Some r -> length r = length a.
Proof.
  intros Hn. destruct x as [c | xs]; simpl.
  - intros [= <-]. apply length_map.
  - destruct (Nat.eqb (length xs) (length a)) eqn:Heq.
    + apply Nat.eqb_eq in Heq. intros [= <-].
      apply length_mul_pointwise, Heq.
    + destruct xs as [| c [| c' xs]].
      * destruct a as [| y [| y' a]]; try discriminate.
        simpl in Hn. congruence.
      * intros [= <-]. apply length_map.
      * destruct a as [| y [| y' a]]; try discriminate.
        simpl in Hn. congruence.
Qed.

(** On a grid of any length but one, the constructor either rejects its
    arguments or stores arrays as long as the grid. *)
Lemma init_aligned_off_single_point (f er etand mur mutand : ndarray)
    (s : state) :
  length (atleast_1d f) <> 1%nat ->
  init f er etand mur mutand = Some s -> aligned s.
Proof.
  intros Hn. unfold init.
  assert (Hones : length (ones_like (atleast_1d f)) <> 1%nat)
    by (rewrite length_ones_like; exact Hn).
  destruct (mul_broadcast er _) as [e |] eqn:He; [| discriminate].
  destruct (mul_broadcast etand _) as [et |] eqn:Het; [| discriminate].
  destruct (mul_broadcast mur _) as [m |] eqn:Hm; [| discriminate].
  destruct (mul_broadcast mutand _) as [mt |] eqn:Hmt; [| discriminate].
  intros [= <-]. unfold aligned; simpl.
  apply mul_broadcast_length in He, Het, Hm, Hmt; try exact Hones.
  rewrite length_ones_like in He, Het, Hm, Hmt. auto.
Qed.

(** An array as long as the grid is stored entry by entry, in the grid's
    order, each entry multiplied by one. *)
Lemma mul_pointwise_ones (xs : list R) (n : nat) :
  length xs = n -> mul_pointwise xs (repeat 1 n) = map (fun v => v * 1) xs.
Proof.
  revert n. induction xs as [| x xs IH]; intros [| n] Hlen;
    simpl in *; try discriminate; [reflexivity |].
  f_equal. apply IH. congruence.
Qed.

Lemma mul_broadcast_conforming (xs a : list R) :
  length xs = length a ->
  mul_broadcast (Array1 xs) (ones_like a) = Some (map (fun v => v * 1) xs).
Proof.
  intros Hlen. unfold mul_broadcast.
  rewrite length_ones_like, (proj2 (Nat.eqb_eq _ _) Hlen).
  unfold ones_like. rewrite mul_pointwise_ones by exact Hlen. reflexivity.
Qed.

(** Scalars are always stretched to the grid. *)
Lemma init_scalars_aligned (f : ndarray) (er etand mur mutand : R) :
  exists s,
    init f (Scalar er) (Scalar etand) (Scalar mur) (Scalar mutand) = Some s /\
    aligned s.
Proof.
  eexists. split; [reflexivity |].
  unfold aligned; simpl.
  rewrite !length_map, !length_ones_like. auto.
Qed.

(** C9, at the failing input: a single frequency together with a
    three-point [er] is accepted, and the stored [er] has three entries
    against a grid of one. *)
Theorem init_single_frequency_array_er :
  exists s,
    init (Scalar 1e9) (Array1 (2 :: 3 :: 4 :: nil))
         (Scalar 0) (Scalar 1) (Scalar 0) = Some s /\
    length (self_f s) = 1%nat /\
    length (self_er s) = 3%nat /\
    ~ aligned s.
Proof.
  eexists. split; [reflexivity |].
  split; [reflexivity |]. split; [reflexivity |].
  unfold aligned; simpl. intros [H _]. discriminate H.
Qed.

End StoredArrays.

(** * Further properties of the code *)

(** ** Decibels, both ways *)

Section DecibelLaws.
Import Cplx HFSSMS.
Local Open Scope R_scope.

Lemma db2mag_pos (x : R) : 0 < db2mag x.
Proof. unfold db2mag, Rpower. apply exp_pos. Qed.

Lemma log10_Rpower10 (t : R) : log10 (Rpower 10 t) = t.
Proof.
  unfold log10, Rpower. rewrite ln_exp. field.
  apply Rgt_not_eq, ln10_pos.
Qed.

Lemma Cabs_mul (x y : C) : Cabs (Cmul x y) = Cabs x * Cabs y.
Proof.
  unfold Cabs. rewrite <- sqrt_mult_alt by apply Cnorm2_nonneg.
  f_equal. simpl. ring.
Qed.

(** X1: decibels back from a magnitude that came from decibels: [mag2db] undoes
    [db2mag] on every real. *)
Theorem mag2db_db2mag (x : R) : mag2db (RtoC (db2mag x)) = x.
Proof.
  unfold mag2db. rewrite Cabs_RtoC.
  rewrite Rabs_pos_eq by (left; apply db2mag_pos).
  unfold db2mag. rewrite log10_Rpower10. field.
Qed.

(** X2: the decibel value of a product of two nonzero numbers is the sum of
    their decibel values. *)
Theorem mag2db_mul (x y : C) :
  x <> mkC 0 0 -> y <> mkC 0 0 ->
  mag2db (Cmul x y) = mag2db x + mag2db y.
Proof.
  intros Hx Hy. unfold mag2db, log10. rewrite Cabs_mul.
  rewrite ln_mult by (apply Cabs_pos; assumption).
  field. apply Rgt_not_eq, ln10_pos.
Qed.

Lemma mag2db_mul_witness :
  mag2db (Cmul (mkC 2 0) (mkC 0 3)) = mag2db (mkC 2 0) + mag2db (mkC 0 3).
Proof.
  apply (mag2db_mul (mkC 2 0) (mkC 0 3)).
  - intros H. apply (f_equal re) in H. simpl in H. lra.
  - intros H. apply (f_equal im) in H. simpl in H. lra.
Defined.

(** X4: loss in dB/mm depends on the real part only and does not decrease
    when the real part grows. *)
Theorem gamma2dbmm_monotone (x y : C) :
  re x <= re y -> gamma2dbmm x <= gamma2dbmm y.
Proof.
  intros Hle. rewrite !gamma2dbmm_linear.
  pose proof ln10_pos as Hln.
  unfold Rdiv. apply Rmult_le_compat_r; [| lra].
  left. apply Rinv_0_lt_compat, Hln.
Qed.

Lemma gamma2dbmm_monotone_witness :
  gamma2dbmm (mkC 1 7) <= gamma2dbmm (mkC 2 (-3)).
Proof. apply (gamma2dbmm_monotone (mkC 1 7) (mkC 2 (-3))). simpl. lra. Defined.

(** X5: the loss of two propagation constants added together is the sum of
    their losses. *)
Theorem gamma2dbmm_add (x y : C) :
  gamma2dbmm (Cadd x y) = gamma2dbmm x + gamma2dbmm y.
Proof.
  rewrite !gamma2dbmm_linear. simpl. field.
  apply Rgt_not_eq, ln10_pos.
Qed.

End DecibelLaws.

(** ** Propagation constant and effective permittivity *)

Section EreffLaws.
Import Cplx HFSSMS Contracts.
Local Open Scope R_scope.

Lemma scale_back (K k : R) (w : C) :
  k * K = 1 -> Cmul (RtoC K) (Cmul (RtoC k) w) = w.
Proof.
  intros H. destruct w as [a b]. apply C_eq; cbn [re im Cmul RtoC].
  - transitivity ((k * K) * a); [ring | rewrite H; ring].
  - transitivity ((k * K) * b); [ring | rewrite H; ring].
Qed.

(** X6: from an effective permittivity to a propagation constant and back:
    the result is the permittivity with [j eps] subtracted, exactly. *)
Theorem gamma2ereff_ereff2gamma (x : C) (f : R) :
  0 < f ->
  gamma2ereff (ereff2gamma x f) f = Csub x (Cmul Ci (RtoC eps)).
Proof.
  intros Hf. pose proof (wave_inverse f Hf) as HkK.
  unfold gamma2ereff, ereff2gamma.
  set (z := Copp (Csub x (Cmul Ci (RtoC eps)))).
  set (K := c0 / 2 / PI / f) in *. set (k := 2 * PI * f / c0) in *.
  assert (Hw : Cmul (RtoC K) (Cmul (RtoC k) (Csqrt z)) = Csqrt z)
    by (apply scale_back; exact HkK).
  rewrite Hw, Csqr_Csqrt. unfold z. apply C_eq; simpl; ring.
Qed.

Lemma gamma2ereff_ereff2gamma_witness :
  gamma2ereff (ereff2gamma (mkC 3 (-1)) 1) 1
    = Csub (mkC 3 (-1)) (Cmul Ci (RtoC eps)).
Proof. apply (gamma2ereff_ereff2gamma (mkC 3 (-1)) 1). lra. Defined.

(** X7: a propagation constant and its opposite have the same effective
    permittivity, so the conversion keeps no trace of the sign. *)
Theorem gamma2ereff_even (x : C) (f : R) :
  gamma2ereff (Copp x) f = gamma2ereff x f.
Proof. apply C_eq; simpl; ring. Qed.

(** X8: a forward, attenuated wave ([Re >= 0], [Im >= 0]) has an effective
    permittivity of non-positive imaginary part; its real part is
    non-negative when the phase constant is at least the attenuation. *)
Theorem gamma2ereff_lossy_quadrant (x : C) (f : R) :
  0 <= re x -> 0 <= im x -> 0 < f ->
  im (gamma2ereff x f) <= 0 /\
  (re x <= im x -> 0 <= re (gamma2ereff x f)).
Proof.
  intros Ha Hb Hf. pose proof (wavelength_pos f Hf) as HK.
  rewrite gamma2ereff_parts. set (K := c0 / 2 / PI / f) in *. simpl.
  assert (Hp : 0 <= K * re x) by (apply Rmult_le_pos; lra).
  assert (Hq : 0 <= K * im x) by (apply Rmult_le_pos; lra).
  split.
  - pose proof (Rmult_le_pos _ _ Hp Hq). lra.
  - intros Hle.
    assert (Hpq : K * re x <= K * im x)
      by (apply Rmult_le_compat_l; lra).
    pose proof (Rmult_le_compat _ _ _ _ Hp Hp Hpq Hpq). lra.
Qed.

Lemma gamma2ereff_lossy_quadrant_witness :
  im (gamma2ereff (mkC 1 5) 1) <= 0 /\
  (re (mkC 1 5) <= im (mkC 1 5) -> 0 <= re (gamma2ereff (mkC 1 5) 1)).
Proof. apply (gamma2ereff_lossy_quadrant (mkC 1 5) 1); simpl; lra. Defined.

(** X9: for an effective permittivity of non-positive imaginary part, a real
    one included, [ereff2gamma] returns a propagation constant with
    non-negative real and imaginary parts, and the loss computed from it is
    non-negative. *)
Theorem ereff2gamma_closed_quadrant (x : C) (f : R) :
  im x <= 0 -> 0 < f ->
  0 <= re (ereff2gamma x f) /\
  0 <= im (ereff2gamma x f) /\
  0 <= gamma2dbmm (ereff2gamma x f).
Proof.
  intros Hx Hf. pose proof (wavenumber_pos f Hf) as Hk.
  pose proof eps_pos as He.
  assert (Hparts : 0 <= re (ereff2gamma x f) /\ 0 <= im (ereff2gamma x f)).
  { unfold ereff2gamma. rewrite ereff2gamma_arg, re_scale, im_scale.
    split; apply Rmult_le_pos; try lra.
    - apply Csqrt_re_nonneg.
    - apply Csqrt_im_nonneg. simpl. lra. }
  destruct Hparts as [Hre Him]. repeat split; try assumption.
  rewrite gamma2dbmm_linear. pose proof ln10_pos as Hln.
  unfold Rdiv. apply Rmult_le_pos; [lra |].
  left. apply Rinv_0_lt_compat, Hln.
Qed.

Lemma ereff2gamma_closed_quadrant_witness :
  0 <= re (ereff2gamma (mkC 3 0) 1) /\
  0 <= im (ereff2gamma (mkC 3 0) 1) /\
  0 <= gamma2dbmm (ereff2gamma (mkC 3 0) 1).
Proof. apply (ereff2gamma_closed_quadrant (mkC 3 0) 1); simpl; lra. Defined.

End EreffLaws.

(** ** The permeability model at its edges *)

Section PermeabilityLaws.
Import Cplx example_microstrip.
Local Open Scope R_scope.


(** X10: when [f0^2 = f^2] and [f gamma = 0], that is at [f = f0 = 0] or
    at resonance without damping, the division in [LLmodel] is by zero. *)
Theorem LLmodel_fails_at_undamped_resonance
    (f : R) (muri murf : C) (f0 gamma : R) :
  f0 * f0 = f * f -> f * gamma = 0 ->
  LLmodel f muri murf f0 gamma = None.
Proof.
  intros Hre Him. unfold LLmodel, Cdiv.
  destruct (Czero_dec (LLmodel_den f f0 gamma)) as [_ | Hnz];
    [reflexivity |].
  exfalso. apply Hnz. rewrite LLmodel_den_parts.
  apply C_eq; simpl; lra.
Qed.

Lemma LLmodel_fails_at_undamped_resonance_witness :
  LLmodel 5 (RtoC 20) (RtoC 1) 5 0 = None.
Proof.
  apply (LLmodel_fails_at_undamped_resonance 5 (RtoC 20) (RtoC 1) 5 0); lra.
Defined.



End PermeabilityLaws.

(** ** Default filling: edges, aliasing, and what the caller reads next *)

Section DefaultFillingLaws.
Import Cplx Layers RunSimulation.

Lemma fill_materials_no_keys (dv : loc) (materials : list loc)
    (h : gmap loc obj) :
  fill_materials [] dv materials h = Some h.
Proof. induction materials as [| l rest IH]; simpl; [reflexivity | exact IH]. Qed.

(** X13: with no required keys, or with an empty list of layers, the call
    returns the list and leaves the store as it is; it does not look at
    the layers or at the default table, so it succeeds even when those are
    not dictionaries. *)
Theorem fill_missing_vals_nothing_to_do (keys : list string) (dv mp : loc)
    (materials : list loc) (h : gmap loc obj) :
  h !! mp = Some (OList materials) ->
  keys = [] \/ materials = [] ->
  fill_missing_vals keys dv mp h = Some (h, mp).
Proof.
  intros Hmp [-> | ->]; unfold fill_missing_vals; rewrite Hmp.
  - rewrite fill_materials_no_keys. reflexivity.
  - reflexivity.
Qed.

Lemma fill_missing_vals_nothing_to_do_witness :
  fill_missing_vals [] 7%positive 2%positive example_store
    = Some (example_store, 2%positive).
Proof.
  apply (fill_missing_vals_nothing_to_do [] 7%positive 2%positive
           [1%positive] example_store).
  - reflexivity.
  - left. reflexivity.
Defined.

(** X14: after the call every layer holds its own entries and, for each
    required key it lacked, the entry the default table had before the
    call, or [None] when the table has no such key.  This holds whatever
    the aliasing: a layer listed twice, or the table itself listed as a
    layer. *)
Theorem fill_missing_vals_contents (keys : list string) (dv mp : loc)
    (d : gmap string value) (materials : list loc) (h : gmap loc obj) :
  layers_at h mp materials ->
  h !! dv = Some (ODict d) ->
  exists h',
    fill_missing_vals keys dv mp h = Some (h', mp) /\
    forall l m, l ∈ materials -> h !! l = Some (ODict m) ->
      exists m',
        h' !! l = Some (ODict m') /\
        forall k,
          m' !! k =
            match m !! k with
            | Some v => Some v
            | None =>
                if decide (k ∈ keys) then
                  Some (match d !! k with Some v => v | None => VNone end)
                else None
            end.
Proof.
  intros Hlay Hdv. exists (filled_store keys d materials h). split.
  - apply fill_missing_vals_run; assumption.
  - intros l m Hin Hm. exists (fill_dict keys d m). split.
    + rewrite filled_store_lookup, Hm. simpl.
      rewrite decide_True by exact Hin. reflexivity.
    + intros k. apply fill_dict_lookup.
Qed.

Lemma fill_missing_vals_contents_witness :
  exists h',
    fill_missing_vals ["Rrms"; "tag"]%string 3%positive 2%positive
      example_store = Some (h', 2%positive) /\
    forall l m, l ∈ [1%positive] -> example_store !! l = Some (ODict m) ->
      exists m',
        h' !! l = Some (ODict m') /\
        forall k,
          m' !! k =
            match m !! k with
            | Some v => Some v
            | None =>
                if decide (k ∈ ["Rrms"; "tag"]%string) then
                  Some (match default_values !! k with
                        | Some v => v
                        | None => VNone
                        end)
                else None
            end.
Proof.
  apply (fill_missing_vals_contents ["Rrms"; "tag"]%string 3%positive
           2%positive default_values [1%positive] example_store).
  - exact example_layers.
  - exact example_defaults.
Defined.

Lemma fill_dict_same_keys (keys keys' : list string)
    (d m : gmap string value) :
  (forall k, k ∈ keys <-> k ∈ keys') ->
  fill_dict keys d m = fill_dict keys' d m.
Proof.
  intros Hsame. apply map_eq. intros k. rewrite !fill_dict_lookup.
  destruct (m !! k); [reflexivity |]. apply decide_ext, Hsame.
Qed.

(** X16: the result depends only on which keys are required and which layers
    are listed: reordering or repeating keys or layers changes nothing in
    the store that is left. *)
Theorem fill_missing_vals_order_irrelevant (keys keys' : list string)
    (dv mp mp' : loc) (materials materials' : list loc)
    (h : gmap loc obj) :
  (forall k, k ∈ keys <-> k ∈ keys') ->
  (forall l, l ∈ materials <-> l ∈ materials') ->
  layers_at h mp materials -> layers_at h mp' materials' ->
  is_dict h dv ->
  exists h',
    fill_missing_vals keys dv mp h = Some (h', mp) /\
    fill_missing_vals keys' dv mp' h = Some (h', mp').
Proof.
  intros Hkeys Hmats Hlay Hlay' [d Hdv].
  exists (filled_store keys d materials h). split.
  - apply fill_missing_vals_run; assumption.
  - rewrite (fill_missing_vals_run keys' dv mp' d materials' h Hlay' Hdv).
    f_equal. f_equal. apply map_eq. intros l.
    rewrite !filled_store_lookup.
    destruct (h !! l) as [o |]; simpl; [| reflexivity]. f_equal.
    rewrite (decide_ext (l ∈ materials') (l ∈ materials)
               (fill_obj keys' d o) o) by (symmetry; apply Hmats).
    destruct (decide (l ∈ materials)); [| reflexivity].
    destruct o as [m | items]; simpl; [| reflexivity].
    f_equal. symmetry. apply fill_dict_same_keys, Hkeys.
Qed.

Lemma fill_missing_vals_order_irrelevant_witness :
  exists h',
    fill_missing_vals ["sigma"; "mur"]%string 3%positive 2%positive
      example_store = Some (h', 2%positive) /\
    fill_missing_vals ["mur"; "sigma"; "mur"]%string 3%positive 2%positive
      example_store = Some (h', 2%positive).
Proof.
  apply (fill_missing_vals_order_irrelevant
           ["sigma"; "mur"]%string ["mur"; "sigma"; "mur"]%string
           3%positive 2%positive 2%positive [1%positive] [1%positive]
           example_store).
  - intros k. rewrite !elem_of_cons. tauto.
  - tauto.
  - exact example_layers.
  - exact example_layers.
  - exists default_values. exact example_defaults.
Defined.

(** X17: after the call, reading any required key from every layer, as
    [run_simulation] does for [Rrms], [boundary_loc] and [distribution],
    raises no [KeyError] and gives one value per layer. *)
Theorem column_after_fill (keys : list string) (dv mp : loc)
    (materials : list loc) (h : gmap loc obj) (key : string) :
  layers_at h mp materials -> is_dict h dv -> key ∈ keys ->
  exists h' vs,
    fill_missing_vals keys dv mp h = Some (h', mp) /\
    column h' mp key = Some vs /\
    length vs = length materials.
Proof.
  intros Hlay [d Hdv] Hkey.
  pose proof (filled_store_layers keys d mp materials h Hlay) as [Hmp' _].
  destruct Hlay as [Hmp Hall].
  set (h' := filled_store keys d materials h) in *.
  assert (Hsome : is_Some (mapM (fun x => getitem h' x key) materials)).
  { apply mapM_is_Some_2. apply Forall_forall. intros l Hl.
    apply (proj1 (Forall_forall _ _) Hall) in Hl as Hd.
    destruct Hd as [m Hm]. unfold compose, getitem, h'.
    rewrite filled_store_lookup, Hm. simpl.
    rewrite decide_True by exact Hl. simpl.
    apply fill_dict_has, Hkey. }
  destruct Hsome as [vs Hvs].
  exists h', vs. split; [| split].
  - apply fill_missing_vals_run; [split |]; assumption.
  - unfold column. rewrite Hmp'. exact Hvs.
  - apply mapM_Some_1 in Hvs. symmetry.
    apply (Forall2_length _ _ _ Hvs).
Qed.

Lemma column_after_fill_witness :
  exists h' vs,
    fill_missing_vals required_keys 3%positive 2%positive example_store
      = Some (h', 2%positive) /\
    column h' 2%positive "boundary_loc" = Some vs /\
    length vs = length [1%positive].
Proof.
  apply (column_after_fill required_keys 3%positive 2%positive
           [1%positive] example_store "boundary_loc").
  - exact example_layers.
  - exists default_values. exact example_defaults.
  - unfold required_keys. rewrite !elem_of_cons. tauto.
Defined.

End DefaultFillingLaws.

(** ** What the constructor stores, and when it refuses *)

Section ConstructorLaws.
Import Ctor Contracts.
Local Open Scope R_scope.

(** X18: a constructed object whose stored arrays differ in length from its
    grid has a grid of exactly one point: on every other grid, whatever
    the constructor accepts is stored aligned. *)
Theorem init_misaligned_only_single_point
    (f er etand mur mutand : ndarray) (s : state) :
  init f er etand mur mutand = Some s ->
  aligned s \/ length (self_f s) = 1%nat.
Proof.
  intros Hinit.
  assert (Hf : self_f s = atleast_1d f).
  { unfold init in Hinit.
    destruct (mul_broadcast er _); [| discriminate].
    destruct (mul_broadcast etand _); [| discriminate].
    destruct (mul_broadcast mur _); [| discriminate].
    destruct (mul_broadcast mutand _); [| discriminate].
    injection Hinit as <-. reflexivity. }
  destruct (Nat.eq_dec (length (atleast_1d f)) 1%nat) as [H1 | H1].
  - right. rewrite Hf. exact H1.
  - left. apply (init_aligned_off_single_point f er etand mur mutand s H1 Hinit).
Qed.

Lemma init_misaligned_only_single_point_witness :
  aligned (mkState (1e9 :: 2e9 :: nil)
                   (mul_pointwise (3 :: 4 :: nil) (1 :: 1 :: nil))
                   (map (Rmult 0) (1 :: 1 :: nil))
                   (map (Rmult 1) (1 :: 1 :: nil))
                   (map (Rmult 0) (1 :: 1 :: nil))) \/
  length (1e9 :: 2e9 :: nil) = 1%nat.
Proof.
  apply (init_misaligned_only_single_point
           (Array1 (1e9 :: 2e9 :: nil)) (Array1 (3 :: 4 :: nil))
           (Scalar 0) (Scalar 1) (Scalar 0)).
  reflexivity.
Defined.

Lemma map_times_one (xs : list R) : map (fun v => v * 1) xs = xs.
Proof.
  induction xs as [| x xs IH]; simpl; [reflexivity |].
  rewrite IH, Rmult_1_r. reflexivity.
Qed.

Lemma scalar_times_ones (c : R) (a : list R) :
  map (Rmult c) (ones_like a) = repeat c (length a).
Proof.
  unfold ones_like. induction (length a) as [| n IH]; simpl;
    [reflexivity |].
  rewrite IH, Rmult_1_r. reflexivity.
Qed.

(** X19: arrays as long as the grid are stored as given, entry for entry. *)
Theorem init_arrays_stored (f : ndarray) (er etand mur mutand : list R) :
  length er = length (atleast_1d f) ->
  length etand = length (atleast_1d f) ->
  length mur = length (atleast_1d f) ->
  length mutand = length (atleast_1d f) ->
  init f (Array1 er) (Array1 etand) (Array1 mur) (Array1 mutand)
    = Some (mkState (atleast_1d f) er etand mur mutand).
Proof.
  intros H1 H2 H3 H4. unfold init.
  rewrite !mul_broadcast_conforming by assumption.
  rewrite !map_times_one. reflexivity.
Qed.

Lemma init_arrays_stored_witness :
  init (Array1 (1e9 :: 2e9 :: nil)) (Array1 (3 :: 4 :: nil))
       (Array1 (0 :: 0 :: nil)) (Array1 (1 :: 1 :: nil))
       (Array1 (0 :: 0 :: nil))
  = Some (mkState (1e9 :: 2e9 :: nil) (3 :: 4 :: nil) (0 :: 0 :: nil)
                  (1 :: 1 :: nil) (0 :: 0 :: nil)).
Proof.
  apply (init_arrays_stored (Array1 (1e9 :: 2e9 :: nil)) (3 :: 4 :: nil)
           (0 :: 0 :: nil) (1 :: 1 :: nil) (0 :: 0 :: nil));
    reflexivity.
Defined.

(** X20: numbers are repeated once per grid point. *)
Theorem init_scalars_replicated (f : ndarray) (er etand mur mutand : R) :
  init f (Scalar er) (Scalar etand) (Scalar mur) (Scalar mutand)
    = Some (mkState (atleast_1d f)
                    (repeat er (length (atleast_1d f)))
                    (repeat etand (length (atleast_1d f)))
                    (repeat mur (length (atleast_1d f)))
                    (repeat mutand (length (atleast_1d f)))).
Proof.
  unfold init, mul_broadcast. rewrite !scalar_times_ones. reflexivity.
Qed.

Lemma mul_broadcast_None (x : ndarray) (a : list R) :
  mul_broadcast x a = None <->
  exists xs, x = Array1 xs /\ length xs <> length a /\
             length xs <> 1%nat /\ length a <> 1%nat.
Proof.
  split.
  - destruct x as [c | xs]; simpl; [discriminate |].
    destruct (Nat.eqb (length xs) (length a)) eqn:Heq; [discriminate |].
    apply Nat.eqb_neq in Heq. intros Hnone. exists xs.
    split; [reflexivity |]. split; [exact Heq |].
    destruct xs as [| c [| c' xs]]; destruct a as [| y [| y' a]];
      simpl in *; try discriminate; split; lia.
  - intros (xs & -> & Hne & Hx & Ha). simpl.
    apply Nat.eqb_neq in Hne. rewrite Hne.
    destruct xs as [| c [| c' xs]]; destruct a as [| y [| y' a]];
      simpl in *; try reflexivity; lia.
Qed.

(** X21: the constructor refuses its arguments exactly when one of the four
    material arguments is an array whose length is neither one nor the
    grid's, on a grid whose length is not one. *)
Theorem init_fails_iff (f er etand mur mutand : ndarray) :
  init f er etand mur mutand = None <->
  Exists (fun x => exists xs, x = Array1 xs /\
                     length xs <> length (atleast_1d f) /\
                     length xs <> 1%nat /\
                     length (atleast_1d f) <> 1%nat)
         (er :: etand :: mur :: mutand :: nil).
Proof.
  unfold init. rewrite !Exists_cons, Exists_nil.
  pose proof (mul_broadcast_None er (ones_like (atleast_1d f))) as H1.
  pose proof (mul_broadcast_None etand (ones_like (atleast_1d f))) as H2.
  pose proof (mul_broadcast_None mur (ones_like (atleast_1d f))) as H3.
  pose proof (mul_broadcast_None mutand (ones_like (atleast_1d f))) as H4.
  rewrite length_ones_like in H1, H2, H3, H4.
  destruct (mul_broadcast er _);
    destruct (mul_broadcast etand _);
    destruct (mul_broadcast mur _);
    destruct (mul_broadcast mutand _);
    split; intros H; try discriminate; try reflexivity; try tauto;
    exfalso;
    repeat match goal with
           | Hd : _ \/ _ |- _ => destruct Hd
           | Hf : False |- _ => destruct Hf
           end;
    match goal with
    | Hi : Some _ = None <-> ?P, Hp : ?P |- _ =>
        apply Hi in Hp; discriminate
    end.
Qed.

Lemma init_fails_iff_witness :
  init (Array1 (1e9 :: 2e9 :: nil)) (Array1 (2 :: 3 :: 4 :: nil))
       (Scalar 0) (Scalar 1) (Scalar 0) = None.
Proof.
  apply (proj2 (init_fails_iff (Array1 (1e9 :: 2e9 :: nil))
                  (Array1 (2 :: 3 :: 4 :: nil))
                  (Scalar 0) (Scalar 1) (Scalar 0))).
  apply Exists_cons_hd. exists (2 :: 3 :: 4 :: nil). simpl.
  repeat split; lia.
Defined.

End ConstructorLaws.

(** ** Inside [run_simulation] *)

Section RunSimulationLaws.
Import Cplx RunSimulation.
Local Open Scope R_scope.

Lemma array_max_None (xs : list R) : array_max xs = None <-> xs = nil.
Proof.
  destruct xs as [| x rest]; simpl; [tauto |].
  destruct (array_max rest); split; discriminate.
Qed.

Lemma array_max_spec (xs : list R) (m : R) :
  array_max xs = Some m -> m ∈ xs /\ forall x, x ∈ xs -> x <= m.
Proof.
  revert m. induction xs as [| a rest IH]; intros m; simpl;
    [discriminate |].
  destruct (array_max rest) as [m' |] eqn:Hrest; intros [= <-].
  - destruct (IH m' eq_refl) as [Hin Hle]. split.
    + unfold Rmax. destruct (Rle_dec a m');
        [right; exact Hin | left].
    + intros x Hx. apply elem_of_cons in Hx as [-> | Hx].
      * apply Rmax_l.
      * apply Rle_trans with m'; [apply Hle, Hx | apply Rmax_r].
  - apply array_max_None in Hrest. subst rest. split; [left |].
    intros x Hx. apply list_elem_of_singleton in Hx. subst x. lra.
Qed.

(** X22: when no solution frequency is given, [hfss_ms.py] uses 0.8 times a
    grid frequency that no other grid frequency exceeds. *)
Theorem solution_freq_default_bounds (self_f : list R) (s : R) :
  solution_freq_default self_f None = Some s ->
  exists m, m ∈ self_f /\ s = m * 0.8 /\
            forall x, x ∈ self_f -> x * 0.8 <= s.
Proof.
  unfold solution_freq_default.
  destruct (array_max self_f) as [m |] eqn:Hmax; intros [= <-].
  destruct (array_max_spec self_f m Hmax) as [Hin Hle].
  exists m. repeat split; [exact Hin |].
  intros x Hx. specialize (Hle x Hx). lra.
Qed.

Lemma solution_freq_default_bounds_witness :
  exists m, m ∈ (1 :: 3 :: 2 :: nil) /\ Rmax 1 (Rmax 3 2) * 0.8 = m * 0.8 /\
            forall x, x ∈ (1 :: 3 :: 2 :: nil) ->
                      x * 0.8 <= Rmax 1 (Rmax 3 2) * 0.8.
Proof.
  apply (solution_freq_default_bounds (1 :: 3 :: 2 :: nil)
           (Rmax 1 (Rmax 3 2) * 0.8)).
  reflexivity.
Defined.

(** X23: in both scripts the choice of the solution frequency fails exactly
    when none is given and the grid is empty; a given frequency is used as
    it is, whatever the grid. *)
Theorem solution_freq_fails_iff (self_f : list R) (sf : option R) :
  (solution_freq_default self_f sf = None <-> sf = None /\ self_f = nil) /\
  (solution_freq_default_2d self_f sf = None <-> sf = None /\ self_f = nil) /\
  (forall s, sf = Some s ->
     solution_freq_default self_f sf = Some s /\
     solution_freq_default_2d self_f sf = Some s).
Proof.
  unfold solution_freq_default, solution_freq_default_2d.
  split; [| split].
  - destruct sf as [s |]; [split; [discriminate | intros [H _]; discriminate] |].
    destruct (array_max self_f) eqn:Hmax.
    + split; [discriminate |]. intros [_ ->]. discriminate.
    + apply array_max_None in Hmax. tauto.
  - destruct sf as [s |]; [split; [discriminate | intros [H _]; discriminate] |].
    destruct (last self_f) eqn:Hlast.
    + split; [discriminate |]. intros [_ ->]. discriminate.
    + apply last_None in Hlast. tauto.
  - intros s ->. split; reflexivity.
Qed.

Lemma Sorted_all_le (a : R) (rest : list R) :
  Sorted Rle (a :: rest) -> forall x, x ∈ rest -> a <= x.
Proof.
  intros Hs x Hx.
  assert (Htrans : Relations_1.Transitive Rle)
    by (intros u v w; apply Rle_trans).
  apply (Sorted_StronglySorted Htrans) in Hs.
  apply StronglySorted_inv in Hs as [_ Hall].
  apply (proj1 (Forall_forall _ _) Hall). exact Hx.
Qed.

Lemma array_max_sorted (xs : list R) :
  Sorted Rle xs -> array_max xs = last xs.
Proof.
  induction xs as [| a rest IH]; intros Hs; [reflexivity |].
  pose proof (Sorted_all_le a rest Hs) as Hle.
  apply Sorted_inv in Hs as [Hrest _].
  simpl. rewrite (IH Hrest).
  destruct rest as [| b rest']; [reflexivity |].
  rewrite last_cons_cons.
  destruct (last (b :: rest')) as [m |] eqn:Hlast.
  - f_equal. apply Rmax_right, Hle.
    apply last_Some_elem_of, Hlast.
  - apply last_None in Hlast. discriminate.
Qed.

(** X24: on a grid in ascending order the two scripts choose the same solution
    frequency. *)
Theorem solution_freq_scripts_agree (self_f : list R) (sf : option R) :
  Sorted Rle self_f ->
  solution_freq_default_2d self_f sf = solution_freq_default self_f sf.
Proof.
  intros Hs. unfold solution_freq_default, solution_freq_default_2d.
  rewrite (array_max_sorted self_f Hs). reflexivity.
Qed.

Lemma solution_freq_scripts_agree_witness :
  solution_freq_default_2d (1 :: 2 :: 3 :: nil) None
    = solution_freq_default (1 :: 2 :: 3 :: nil) None.
Proof.
  apply (solution_freq_scripts_agree (1 :: 2 :: 3 :: nil) None).
  repeat constructor; lra.
Defined.

Lemma loss_times (x t : R) :
  Cmul (RtoC x) (Csub (RtoC 1) (Cmul Ci (RtoC t))) = mkC x (- (x * t)).
Proof. apply C_eq; simpl; ring. Qed.

Lemma zip_loss_factor (a tand : list R) :
  zip_with (fun x z => Cmul (RtoC x) z) a (loss_factor tand)
    = zip_with (fun x t => mkC x (- (x * t))) a tand.
Proof.
  unfold loss_factor. revert tand.
  induction a as [| x a IH]; intros [| t tand]; simpl; try reflexivity.
  rewrite loss_times, IH. reflexivity.
Qed.

(** X25: for a material array and a loss-tangent array of one length, the
    complex material has, point by point, the material as real part and
    minus material times loss tangent as imaginary part. *)
Theorem complex_material_pointwise (a tand : list R) :
  length a = length tand ->
  complex_material a tand
    = Some (zip_with (fun x t => mkC x (- (x * t))) a tand).
Proof.
  intros Hlen. unfold complex_material, broadcast2.
  unfold loss_factor at 1. rewrite length_map.
  rewrite (proj2 (Nat.eqb_eq _ _) Hlen), zip_loss_factor. reflexivity.
Qed.

Lemma complex_material_pointwise_witness :
  complex_material (3 :: 4 :: nil) (0.1 :: 0.2 :: nil)
    = Some (zip_with (fun x t => mkC x (- (x * t)))
                     (3 :: 4 :: nil) (0.1 :: 0.2 :: nil)).
Proof.
  apply (complex_material_pointwise (3 :: 4 :: nil) (0.1 :: 0.2 :: nil)).
  reflexivity.
Defined.

Lemma broadcast2_elems {A B D : Type} (op : A -> B -> D)
    (xs : list A) (ys : list B) (zs : list D) :
  broadcast2 op xs ys = Some zs ->
  forall z, z ∈ zs -> exists x y, x ∈ xs /\ y ∈ ys /\ z = op x y.
Proof.
  unfold broadcast2.
  destruct (Nat.eqb (length xs) (length ys)).
  - intros [= <-] z Hz. clear -Hz. revert ys Hz.
    induction xs as [| x xs IH]; intros [| y ys] Hz; simpl in Hz;
      try (apply elem_of_nil in Hz; contradiction).
    apply elem_of_cons in Hz as [-> | Hz].
    + exists x, y. repeat split; left.
    + destruct (IH ys Hz) as (x' & y' & Hx & Hy & ->).
      exists x', y'. repeat split; right; assumption.
  - destruct xs as [| x [| x' xs]].
    + destruct ys as [| y [| y' ys]]; try discriminate.
      intros [= <-] z Hz. apply elem_of_nil in Hz. contradiction.
    + intros [= <-] z Hz. apply list_elem_of_fmap in Hz as (y & -> & Hy).
      exists x, y. repeat split; [left | exact Hy].
    + destruct ys as [| y [| y' ys]]; try discriminate.
      intros [= <-] z Hz.
      change (z ∈ (fun x0 => op x0 y) <$> (x :: x' :: xs)) in Hz.
      apply list_elem_of_fmap in Hz as (x0 & -> & Hx).
      exists x0, y. repeat split; [exact Hx | left].
Qed.

(** X26: whenever the complex material is formed from non-negative material
    values and non-negative loss tangents, every entry has a non-positive
    imaginary part. *)
Theorem complex_material_lossy (a tand : list R) (zs : list C) :
  Forall (Rle 0) a -> Forall (Rle 0) tand ->
  complex_material a tand = Some zs ->
  Forall (fun z => im z <= 0) zs.
Proof.
  intros Ha Ht Hrun. apply Forall_forall. intros z Hz.
  destruct (broadcast2_elems _ _ _ _ Hrun z Hz) as (x & w & Hx & Hw & ->).
  unfold loss_factor in Hw.
  apply list_elem_of_fmap in Hw as (t & -> & Htin).
  rewrite loss_times. simpl.
  apply (proj1 (Forall_forall _ _) Ha) in Hx.
  apply (proj1 (Forall_forall _ _) Ht) in Htin.
  pose proof (Rmult_le_pos _ _ Hx Htin). lra.
Qed.

Lemma complex_material_lossy_witness :
  Forall (fun z => im z <= 0)
         (map (fun x => Cmul (RtoC x) (Csub (RtoC 1) (Cmul Ci (RtoC 0.1))))
              (3 :: 4 :: nil)).
Proof.
  apply (complex_material_lossy (3 :: 4 :: nil) (0.1 :: nil)).
  - repeat constructor; lra.
  - repeat constructor; lra.
  - reflexivity.
Defined.

(** X27: the complex array built from the solver's real and imaginary parts is
    as long as the shorter of the two; its real parts are the leading real
    data and its imaginary parts the leading imaginary data, so data of one
    length is reproduced and the excess of a longer list is dropped. *)
Theorem complex_array_parts (real imag : list R) :
  length (complex_array real imag) = Nat.min (length real) (length imag) /\
  map re (complex_array real imag) = take (length imag) real /\
  map im (complex_array real imag) = take (length real) imag.
Proof.
  unfold complex_array. split; [apply length_zip_with |].
  revert imag. induction real as [| x real IH]; intros [| y imag]; simpl;
    try (split; reflexivity).
  destruct (IH imag) as [H1 H2]. rewrite H1, H2. split; reflexivity.
Qed.

End RunSimulationLaws.
